(** * Boolean retrieval engine: index builder, binary codec, query lexer and
      stack evaluator

    A shallow embedding of [src/indexer.cpp] (the index builder and the
    writers of the two binary index files) and of [src/searching.cpp]
    (the loaders, the query lexer [parse_query], the three set operations
    and the stack evaluator [boolean_search]), followed by the properties
    established about them.

    Conventions of the embedding:
    - a [std::string] is a [string] (a sequence of 8-bit characters, NUL
      included); [operator<] on [std::string] is the lexicographic order on
      unsigned bytes, which is [String.ltb];
    - a file is a [list byte]; a file that cannot be opened is [None];
    - a [uint64_t] is a [Z] in the range [0, 2^64), stored in the files as
      eight bytes, least significant first (the byte order of the hosts the
      program is built for);
    - a [std::vector] is a [list] in index order: [push_back] appends at the
      end, [back] is the last element, [pop_back] removes it. *)

From Stdlib Require Import List String Ascii ZArith Lia Bool Sorted.
From Stdlib Require Import Strings.Byte OrderedTypeEx.
Import ListNotations.

Open Scope Z_scope.
Open Scope string_scope.
Open Scope list_scope.

(** ** Records shared by the two programs

    Both translation units declare the same two structs. *)

Record DirectIndex := mkDirectIndex {
  doc_id : string;
  title : string;
  url : string
}.

Record InvertedIndex := mkInvertedIndex {
  term : string;
  doc_ids : list string
}.

(** ** [std::vector] operations used by the code *)

Section Vector.
Context {A : Type}.

Definition push_back (v : list A) (x : A) : list A := v ++ [x].

Definition pop_back (v : list A) : list A := removelast v.

(** [back v] on a non-empty vector; the code only calls it after a size
    check, so the default is never returned there. *)
Definition back (d : A) (v : list A) : A := last v d.
End Vector.

(** ** The set algorithms of the C++ standard library

    [std::set_intersection], [std::set_union] and [std::set_difference] as
    the standard describes them: one simultaneous left-to-right pass over the
    two ranges, comparing the front elements with [operator<]. *)

Fixpoint set_intersection (l1 : list string) : list string -> list string :=
  match l1 with
  | [] => fun _ => []
  | x :: l1' =>
      fix against (l2 : list string) : list string :=
        match l2 with
        | [] => []
        | y :: l2' =>
            if String.ltb x y then set_intersection l1' l2
            else if String.ltb y x then against l2'
            else x :: set_intersection l1' l2'
        end
  end.

Fixpoint set_union (l1 : list string) : list string -> list string :=
  match l1 with
  | [] => fun l2 => l2
  | x :: l1' =>
      fix against (l2 : list string) : list string :=
        match l2 with
        | [] => l1
        | y :: l2' =>
            if String.ltb x y then x :: set_union l1' l2
            else if String.ltb y x then y :: against l2'
            else x :: set_union l1' l2'
        end
  end.

Fixpoint set_difference (l1 : list string) : list string -> list string :=
  match l1 with
  | [] => fun _ => []
  | x :: l1' =>
      fix against (l2 : list string) : list string :=
        match l2 with
        | [] => l1
        | y :: l2' =>
            if String.ltb x y then x :: set_difference l1' l2
            else if String.ltb y x then against l2'
            else set_difference l1' l2'
        end
  end.

(** ** searching.cpp: the three evaluator operations *)

Definition empty {A : Type} (v : list A) : bool :=
  match v with [] => true | _ => false end.

Definition and_operation (left right : list string) : list string :=
  if empty left || empty right then []
  else set_intersection left right.

Definition or_operation (left right : list string) : list string :=
  if empty left || empty right then []
  else set_union left right.

Definition not_operation (left right : list string) : list string :=
  if empty left then []
  else set_difference left right.

(** ** searching.cpp: [parse_query]

    The loop over the characters of the query, with its three locals:
    [tokens], the operand being accumulated [token], and [in_quotes]. The
    look-ahead [query[i + 1] == c] of the operator branch followed by [++i]
    is the match on the rest of the string. *)

Definition dquote : ascii := "034"%char.

Definition flush (tokens : list string) (token : string) : list string :=
  if (token =? "")%string then tokens else push_back tokens token.

Definition is_separator (c : ascii) : bool :=
  ((c =? " ") || (c =? "(") || (c =? ")"))%char.

Definition is_operator_char (c : ascii) : bool :=
  ((c =? "&") || (c =? "|") || (c =? "!"))%char.

Definition string_of_char (c : ascii) : string := String c EmptyString.

Fixpoint parse_loop (query : string) (tokens : list string) (token : string)
    (in_quotes : bool) {struct query} : list string :=
  match query with
  | EmptyString => flush tokens token
  | String c rest =>
      if (c =? dquote)%char && negb in_quotes then
        parse_loop rest tokens token true
      else if (c =? dquote)%char && in_quotes then
        parse_loop rest tokens token false
      else if is_separator c && negb in_quotes then
        parse_loop rest (flush tokens token) "" in_quotes
      else if is_operator_char c then
        let tokens' := flush tokens token in
        match rest with
        | String c' rest' =>
            if (c' =? c)%char then
              parse_loop rest' (push_back tokens' (String c (String c EmptyString))) ""
                in_quotes
            else
              parse_loop rest (push_back tokens' (string_of_char c)) "" in_quotes
        | EmptyString =>
            parse_loop rest (push_back tokens' (string_of_char c)) "" in_quotes
        end
      else
        parse_loop rest tokens (token ++ string_of_char c)%string in_quotes
  end.

Definition parse_query (query : string) : list string :=
  parse_loop query [] "" false.

(** ** searching.cpp: [boolean_search]

    [eval_token] is one iteration of the loop over the tokens; the stack is
    the vector [stack] of the code, top at the back. *)

Definition is_operator (token : string) : bool :=
  ((token =? "&&") || (token =? "||") || (token =? "!"))%string.

(** The inner loop over the entries of the inverted index: the postings of
    the first entry whose term is the token, if there is one. *)
Fixpoint lookup_term (inverted_index : list InvertedIndex) (token : string)
    : option (list string) :=
  match inverted_index with
  | [] => None
  | entry :: others =>
      if (term entry =? token)%string then Some (doc_ids entry)
      else lookup_term others token
  end.

Definition eval_token (inverted_index : list InvertedIndex)
    (stack : list (list string)) (token : string) : list (list string) :=
  if is_operator token then
    if (List.length stack <? 2)%nat then stack
    else
      let right := back [] stack in
      let stack1 := pop_back stack in
      let left := back [] stack1 in
      let stack2 := pop_back stack1 in
      let result :=
        if (token =? "&&")%string then and_operation left right
        else if (token =? "||")%string then or_operation left right
        else if (token =? "!")%string then not_operation left right
        else [] in
      push_back stack2 result
  else
    match lookup_term inverted_index token with
    | Some postings => push_back stack postings
    | None => stack
    end.

Definition eval_tokens (inverted_index : list InvertedIndex)
    (tokens : list string) (stack : list (list string)) : list (list string) :=
  fold_left (eval_token inverted_index) tokens stack.

Definition boolean_search (query : string) (inverted_index : list InvertedIndex)
    (direct_index : list DirectIndex) : list string :=
  let tokens := parse_query query in
  let stack := eval_tokens inverted_index tokens [] in
  if empty stack then [] else back [] stack.

(** ** The binary layout: [uint64_t] fields and raw character runs *)

Definition byte_of_Z (z : Z) : byte :=
  match Byte.of_N (Z.to_N (z mod 256)) with
  | Some b => b
  | None => x00
  end.

Definition Z_of_byte (b : byte) : Z := Z.of_N (Byte.to_N b).

(** The [width] low bytes of [n], least significant first: the object
    representation that [reinterpret_cast<const char*>(&n)] exposes. *)
Fixpoint le_bytes (width : nat) (n : Z) : list byte :=
  match width with
  | O => []
  | S width' => byte_of_Z (n mod 256) :: le_bytes width' (n / 256)
  end.

Fixpoint le_value (bs : list byte) : Z :=
  match bs with
  | [] => 0
  | b :: bs' => Z_of_byte b + 256 * le_value bs'
  end.

Definition u64_max : Z := 2 ^ 64.

(** [uint64_t n = s.size()] followed by [out.write(&n, sizeof n)]. *)
Definition u64_bytes (n : Z) : list byte := le_bytes 8 (n mod u64_max).

Definition size (s : string) : Z := Z.of_nat (String.length s).

(** [out.write(s.c_str(), s.size())]. *)
Definition chars (s : string) : list byte := list_byte_of_string s.

(** A length-prefixed string, as both writers emit it. *)
Definition write_string (s : string) : list byte :=
  u64_bytes (size s) ++ chars s.

(** ** indexer.cpp: the two writers

    The result is the content of the file after [out.close()], or [None]
    when the file could not be opened: the writer then reports on [cerr]
    and returns, and no file is written. *)

Definition direct_record_bytes (doc : DirectIndex) : list byte :=
  write_string (title doc) ++ write_string (url doc).

Definition direct_index_bytes (direct_index : list DirectIndex) : list byte :=
  flat_map direct_record_bytes direct_index.

Definition write_direct_index (direct_index : list DirectIndex)
    (can_open : bool) : option (list byte) :=
  if negb can_open then None
  else Some (direct_index_bytes direct_index).

Definition inverted_record_bytes (entry : InvertedIndex) : list byte :=
  write_string (term entry)
  ++ u64_bytes (Z.of_nat (List.length (doc_ids entry)))
  ++ flat_map write_string (doc_ids entry).

Definition inverted_index_bytes (inverted_index : list InvertedIndex)
    : list byte :=
  flat_map inverted_record_bytes inverted_index.

Definition write_inverted_index (inverted_index : list InvertedIndex)
    (can_open : bool) : option (list byte) :=
  if negb can_open then None
  else Some (inverted_index_bytes inverted_index).

(** ** The input stream of the loaders

    [std::ifstream] over the bytes of a file, with the two state bits the
    loaders test. [istream::read] on a stream that is not good sets
    [failbit] and stores nothing; on a good stream it stores what is left,
    and when that is fewer characters than asked for it sets [eofbit] and
    [failbit]. *)

Record istream := mkIstream {
  pending : list byte;
  eofbit : bool;
  failbit : bool
}.

Definition open_stream (bytes : list byte) : istream :=
  mkIstream bytes false false.

(** [if (infile)] / [while (infile)]: the stream has not failed. *)
Definition stream_ok (s : istream) : bool := negb (failbit s).

(** [infile.read(buffer, n)]: the characters stored and the stream after. *)
Definition read (n : nat) (s : istream) : list byte * istream :=
  if eofbit s || failbit s then ([], mkIstream (pending s) (eofbit s) true)
  else if (n <=? List.length (pending s))%nat then
    (firstn n (pending s), mkIstream (skipn n (pending s)) false false)
  else (pending s, mkIstream [] true true).

(** Reading a [uint64_t] local that was declared without a value: [Some v]
    when all eight bytes arrived, [None] when the variable is left (wholly
    or partly) indeterminate. *)
Definition read_u64 (s : istream) : option Z * istream :=
  let (got, s') := read 8 s in
  if (List.length got =? 8)%nat then (Some (le_value got), s')
  else (None, s').

(** [str.resize(n); infile.read(&str[0], n)]: [resize] fills the string
    with [n] NUL characters and [read] overwrites the ones that arrive. *)
Definition read_chars (n : Z) (s : istream) : string * istream :=
  let (got, s') := read (Z.to_nat n) s in
  (string_of_list_byte (got ++ repeat x00 (Z.to_nat n - List.length got)%nat), s').

(** What the run-time library does with the sizes the files ask for:
    [resize] throws ([std::length_error] above [max_size()],
    [std::bad_alloc] when the memory is not there), and neither loader
    catches. The two predicates say for which sizes it does not throw; the
    properties below hold whatever they are, or name the sizes they need. *)
Record Host := mkHost {
  string_resize_ok : Z -> bool;
  vector_resize_ok : Z -> bool
}.

(** How a piece of the program ends: it returns, an exception leaves
    [main] and [std::terminate] aborts the process, or it uses an
    indeterminate value, after which the language promises nothing. *)
Inductive outcome (A : Type) : Type :=
| Returned (a : A)
| Terminated
| Undefined.
Arguments Returned {A} a.
Arguments Terminated {A}.
Arguments Undefined {A}.

Definition bind {A B : Type} (o : outcome A) (k : A -> outcome B) : outcome B :=
  match o with
  | Returned a => k a
  | Terminated => Terminated
  | Undefined => Undefined
  end.

Notation "x <- o ;; k" := (bind o (fun x => k))
  (at level 61, o at next level, right associativity).
Notation "' pat <- o ;; k" :=
  (bind o (fun x => match x with pat => k end))
  (at level 61, pat pattern, o at next level, right associativity).

(** A size that was just read into an unset local and is now used. *)
Definition use_u64 (v : option Z) : outcome Z :=
  match v with
  | Some n => Returned n
  | None => Undefined
  end.

(** [str.resize(n); infile.read(&str[0], n)] with the throw of [resize]. *)
Definition read_string (host : Host) (n : Z) (s : istream)
    : outcome (string * istream) :=
  if string_resize_ok host n then Returned (read_chars n s) else Terminated.

(** [read(&n, 8); str.resize(n); read(&str[0], n)] for a field that is not
    the first of its record. *)
Definition read_field (host : Host) (s : istream) : outcome (string * istream) :=
  let (n, s1) := read_u64 s in
  n <- use_u64 n;;
  read_string host n s1.

(** ** searching.cpp: [load_direct_index] *)

(** One pass through the body of the loop. [None] is the [break] taken when
    [eof()] holds after the first read. *)
Definition load_direct_record (host : Host) (infile : istream)
    : outcome (option (DirectIndex * istream)) :=
  let (title_size, s1) := read_u64 infile in
  if eofbit s1 then Returned None
  else
    title_size <- use_u64 title_size;;
    '(title, s2) <- read_string host title_size s1;;
    '(url, s3) <- read_field host s2;;
    '(doc_id, s4) <- read_field host s3;;
    Returned (Some (mkDirectIndex doc_id title url, s4)).

Fixpoint load_direct_loop (host : Host) (fuel : nat) (infile : istream)
    (direct_index : list DirectIndex) : option (outcome (list DirectIndex)) :=
  if negb (stream_ok infile) then Some (Returned direct_index)
  else
    match load_direct_record host infile with
    | Returned None => Some (Returned direct_index)
    | Returned (Some (doc, infile')) =>
        match fuel with
        | O => None
        | S fuel' =>
            load_direct_loop host fuel' infile' (push_back direct_index doc)
        end
    | Terminated => Some Terminated
    | Undefined => Some Undefined
    end.

Inductive diagnostic : Type :=
| CannotOpenDirectIndex
| CannotOpenInvertedIndex
| NoQueryFileArgument
| CannotOpenQueryFile.

(** The loader proper: the vector it appends to, the file ([None] when it
    cannot be opened), and what goes to [cerr]. Every record takes at least
    eight bytes, so the length of the file bounds the number of passes and
    the last branch is never taken ([load_direct_index_total]). *)
Definition load_direct_index (host : Host) (file : option (list byte))
    (direct_index : list DirectIndex)
    : outcome (list DirectIndex * list diagnostic) :=
  match file with
  | None => Returned (direct_index, [CannotOpenDirectIndex])
  | Some bytes =>
      match load_direct_loop host (List.length bytes) (open_stream bytes)
              direct_index with
      | Some o => loaded <- o;; Returned (loaded, [])
      | None => Undefined
      end
  end.

(** ** searching.cpp: [load_inverted_index] *)

(** The [for] loop over the postings of one entry, [remaining] iterations
    to go. The vector was resized to [doc_count] empty strings beforehand;
    the loop fills them in order, which is an append here. *)
Fixpoint load_postings (host : Host) (remaining : nat) (infile : istream)
    (doc_ids : list string) : outcome (list string * istream) :=
  match remaining with
  | O => Returned (doc_ids, infile)
  | S remaining' =>
      '(doc_id, infile') <- read_field host infile;;
      load_postings host remaining' infile' (push_back doc_ids doc_id)
  end.

Definition load_inverted_record (host : Host) (infile : istream)
    : outcome (option (InvertedIndex * istream)) :=
  let (term_size, s1) := read_u64 infile in
  if eofbit s1 then Returned None
  else
    term_size <- use_u64 term_size;;
    '(term, s2) <- read_string host term_size s1;;
    let (doc_count, s3) := read_u64 s2 in
    doc_count <- use_u64 doc_count;;
    if negb (vector_resize_ok host doc_count) then Terminated
    else
      '(doc_ids, s4) <- load_postings host (Z.to_nat doc_count) s3 [];;
      Returned (Some (mkInvertedIndex term doc_ids, s4)).

Fixpoint load_inverted_loop (host : Host) (fuel : nat) (infile : istream)
    (inverted_index : list InvertedIndex)
    : option (outcome (list InvertedIndex)) :=
  if negb (stream_ok infile) then Some (Returned inverted_index)
  else
    match load_inverted_record host infile with
    | Returned None => Some (Returned inverted_index)
    | Returned (Some (entry, infile')) =>
        match fuel with
        | O => None
        | S fuel' =>
            load_inverted_loop host fuel' infile' (push_back inverted_index entry)
        end
    | Terminated => Some Terminated
    | Undefined => Some Undefined
    end.

Definition load_inverted_index (host : Host) (file : option (list byte))
    (inverted_index : list InvertedIndex)
    : outcome (list InvertedIndex * list diagnostic) :=
  match file with
  | None => Returned (inverted_index, [CannotOpenInvertedIndex])
  | Some bytes =>
      match load_inverted_loop host (List.length bytes) (open_stream bytes)
              inverted_index with
      | Some o => loaded <- o;; Returned (loaded, [])
      | None => Undefined
      end
  end.

(** ** searching.cpp: [main]

    What the searcher prints on [cout], one item per line: the line for a
    query without results, the line for a document found, and the empty
    line that closes every answer. *)

Inductive output : Type :=
| NothingFound (query : string)
| Document (doc_id title url : string)
| BlankLine.

(** [std::find_if] over the direct index, then the line printed for the
    document when it is found. *)
Definition resolve (direct_index : list DirectIndex) (id : string)
    : list output :=
  match find (fun doc => (doc_id doc =? id)%string) direct_index with
  | Some doc => [Document id (title doc) (url doc)]
  | None => []
  end.

(** The body of the loop over the lines of the query file. *)
Definition answer (inverted_index : list InvertedIndex)
    (direct_index : list DirectIndex) (query : string) : list output :=
  if (query =? "")%string then []
  else
    let result := boolean_search query inverted_index direct_index in
    (if empty result then [NothingFound query]
     else flat_map (resolve direct_index) result)
    ++ [BlankLine].

(** The files the searcher opens, each [None] when it cannot be opened. The
    query file is given by its lines, as [std::getline] delivers them. *)
Record SearcherFiles := mkSearcherFiles {
  query_lines : string -> option (list string);
  direct_index_bin : option (list byte);
  inverted_index_bin : option (list byte)
}.

(** A finished run of [main]: the exit status and the two streams. *)
Record finished := mkFinished {
  status : Z;
  cout : list output;
  cerr : list diagnostic
}.

(** [argv] holds the arguments after the program name, so [argc < 2] is
    the empty list. *)
Definition searcher_main (host : Host) (argv : list string)
    (files : SearcherFiles) : outcome finished :=
  match argv with
  | [] => Returned (mkFinished 1 [] [NoQueryFileArgument])
  | query_file :: _ =>
      match query_lines files query_file with
      | None => Returned (mkFinished 1 [] [CannotOpenQueryFile])
      | Some queries =>
          '(direct_index, err1) <-
            load_direct_index host (direct_index_bin files) [];;
          '(inverted_index, err2) <-
            load_inverted_index host (inverted_index_bin files) [];;
          Returned (mkFinished 0
                      (flat_map (answer inverted_index direct_index) queries)
                      (err1 ++ err2))
      end
  end.

(** ** indexer.cpp: [to_lower] and [parse_tokens]

    [std::isalnum] and [::tolower] in the "C" locale, the only one the
    program runs in (it never calls [setlocale]): letters and digits are
    the ASCII ones, and every byte from 128 up is neither. *)

Definition isalnum (c : ascii) : bool :=
  let n := N_of_ascii c in
  ((48 <=? n) && (n <=? 57) || (65 <=? n) && (n <=? 90)
   || (97 <=? n) && (n <=? 122))%N.

Definition tolower (c : ascii) : ascii :=
  let n := N_of_ascii c in
  if ((65 <=? n) && (n <=? 90))%N then ascii_of_N (n + 32) else c.

Fixpoint to_lower (s : string) : string :=
  match s with
  | EmptyString => EmptyString
  | String c s' => String (tolower c) (to_lower s')
  end.

Fixpoint parse_tokens_loop (text : string) (token : string)
    (tokens : list string) : list string :=
  match text with
  | EmptyString =>
      if (token =? "")%string then tokens
      else push_back tokens (to_lower token)
  | String ch text' =>
      if isalnum ch then
        parse_tokens_loop text' (token ++ string_of_char ch)%string tokens
      else if (token =? "")%string then parse_tokens_loop text' token tokens
      else parse_tokens_loop text' "" (push_back tokens (to_lower token))
  end.

Definition parse_tokens (text : string) (tokens : list string) : list string :=
  parse_tokens_loop text "" tokens.

(** ** indexer.cpp: [main]

    One line of [corpus.jsonl] as the JSON library hands it over: the four
    members the builder reads, or [None] when [Json::Reader::parse] rejects
    the line. *)

Record JsonDoc := mkJsonDoc {
  json_doc_id : string;
  json_title : string;
  json_normalized_url : string;
  json_clean_text : string
}.

Inductive builder_diagnostic : Type :=
| CannotOpenCorpus
| JsonParseError
| DuplicateDocument (id : string)
| CannotOpenDirectOutput
| CannotOpenInvertedOutput
| CannotOpenLog.

(** The inner loop over the entries for one token: the index with the
    document appended to the first entry of that term, or [None] when the
    loop ends with [found] still false. *)
Fixpoint append_posting (inverted_index : list InvertedIndex)
    (token id : string) : option (list InvertedIndex) :=
  match inverted_index with
  | [] => None
  | inverted_entry :: others =>
      if (term inverted_entry =? token)%string then
        Some (mkInvertedIndex (term inverted_entry)
                (push_back (doc_ids inverted_entry) id) :: others)
      else
        option_map (cons inverted_entry) (append_posting others token id)
  end.

(** The locals of [main] that live across the loop over the corpus. *)
Record builder := mkBuilder {
  direct_index : list DirectIndex;
  inverted_index : list InvertedIndex;
  total_tokens : Z;
  total_docs : Z;
  total_terms : Z;
  doc_ids_set : list string;
  builder_cerr : list builder_diagnostic
}.

Definition initial_builder : builder := mkBuilder [] [] 0 0 0 [] [].

(** The body of the loop over the tokens of one document, on the pair of
    the inverted index and [total_terms]. *)
Definition index_token (id : string) (acc : list InvertedIndex * Z)
    (token : string) : list InvertedIndex * Z :=
  let (inverted_index, total_terms) := acc in
  match append_posting inverted_index token id with
  | Some inverted_index' => (inverted_index', total_terms)
  | None =>
      (push_back inverted_index (mkInvertedIndex token [id]),
       (total_terms + 1) mod u64_max)
  end.

(** The body of the loop over the lines of the corpus. *)
Definition index_line (b : builder) (line : option JsonDoc) : builder :=
  match line with
  | None =>
      mkBuilder (direct_index b) (inverted_index b) (total_tokens b)
        (total_docs b) (total_terms b) (doc_ids_set b)
        (builder_cerr b ++ [JsonParseError])
  | Some doc_data =>
      let id := json_doc_id doc_data in
      let seen := existsb (String.eqb id) (doc_ids_set b) in
      let tokens := parse_tokens (json_clean_text doc_data) [] in
      let (inverted_index', total_terms') :=
        fold_left (index_token id) tokens (inverted_index b, total_terms b) in
      mkBuilder
        (push_back (direct_index b)
           (mkDirectIndex id (json_title doc_data)
              (json_normalized_url doc_data)))
        inverted_index'
        ((total_tokens b + Z.of_nat (List.length tokens)) mod u64_max)
        ((total_docs b + 1) mod u64_max)
        total_terms'
        (if seen then doc_ids_set b else id :: doc_ids_set b)
        (if seen then builder_cerr b ++ [DuplicateDocument id]
         else builder_cerr b)
  end.

Definition build (lines : list (option JsonDoc)) : builder :=
  fold_left index_line lines initial_builder.

(** What the builder finds when it runs: the corpus ([None] when it cannot
    be opened), and whether each of the three files it writes can be
    opened. *)
Record BuilderWorld := mkBuilderWorld {
  corpus : option (list (option JsonDoc));
  direct_writable : bool;
  inverted_writable : bool;
  log_writable : bool
}.

(** [log_statistics]: when the log opens, the report divides the
    [uint64_t] [total_tokens] by the [uint64_t] [total_docs]; with no
    document that is a division by zero. The figures written (times and
    averages in [double]) are not part of the model. *)
Definition log_statistics (total_docs : Z) (can_open : bool)
    : outcome (list builder_diagnostic) :=
  if negb can_open then Returned [CannotOpenLog]
  else if (total_docs =? 0)%Z then Undefined
  else Returned [].

(** The end of a run of the builder: exit status, the two index files as
    written ([None]: not written), and [cerr]. *)
Record built := mkBuilt {
  exit_status : Z;
  direct_file : option (list byte);
  inverted_file : option (list byte);
  build_cerr : list builder_diagnostic
}.

Definition diagnose {A : Type} (written : option A) (d : builder_diagnostic)
    : list builder_diagnostic :=
  match written with
  | Some _ => []
  | None => [d]
  end.

Definition indexer_main (world : BuilderWorld) : outcome built :=
  match corpus world with
  | None => Returned (mkBuilt 1 None None [CannotOpenCorpus])
  | Some lines =>
      let b := build lines in
      let direct := write_direct_index (direct_index b) (direct_writable world) in
      let inverted :=
        write_inverted_index (inverted_index b) (inverted_writable world) in
      log_cerr <- log_statistics (total_docs b) (log_writable world);;
      Returned (mkBuilt 0 direct inverted
                  (builder_cerr b
                   ++ diagnose direct CannotOpenDirectOutput
                   ++ diagnose inverted CannotOpenInvertedOutput
                   ++ log_cerr))
  end.

Definition scenario_index : list InvertedIndex :=
  [ mkInvertedIndex "cat" ["d1"];
    mkInvertedIndex "dog" ["d1"; "d2"];
    mkInvertedIndex "bird" ["d2"] ].

(** ** Notions the properties are stated with *)

(** Membership of a document identifier in a postings list. *)
Definition mem (x : string) (l : list string) : bool :=
  existsb (String.eqb x) l.

(** Strictly ascending in the order of [operator<]: every element is
    below its successor, so no identifier occurs twice. *)
Fixpoint ascendingb (l : list string) : bool :=
  match l with
  | [] => true
  | x :: l' =>
      match l' with
      | [] => true
      | y :: _ => String.ltb x y && ascendingb l'
      end
  end.

Definition ascending (l : list string) : Prop := ascendingb l = true.

(** A string whose length a [uint64_t] holds, as every [std::string] is. *)
Definition fits (s : string) : Prop := size s < u64_max.

(** The layout [load_direct_index] decodes: three length-prefixed strings
    per record, in the order it reads them. *)
Definition loader_record_bytes (doc : DirectIndex) : list byte :=
  write_string (title doc) ++ write_string (url doc)
  ++ write_string (doc_id doc).

(** A string the loader can take in on [host]: its length fits the length
    field and [resize] to that length does not throw. *)
Definition loadable_string (host : Host) (s : string) : Prop :=
  fits s /\ string_resize_ok host (size s) = true.

Definition loadable (host : Host) (doc : DirectIndex) : Prop :=
  loadable_string host (title doc) /\ loadable_string host (url doc)
  /\ loadable_string host (doc_id doc).

Definition loadable_entry (host : Host) (entry : InvertedIndex) : Prop :=
  loadable_string host (term entry)
  /\ Z.of_nat (List.length (doc_ids entry)) < u64_max
  /\ vector_resize_ok host (Z.of_nat (List.length (doc_ids entry))) = true
  /\ Forall (loadable_string host) (doc_ids entry).

(** The strings [write_direct_index] emits, in file order. *)
Definition direct_fields (direct_index : list DirectIndex) : list string :=
  flat_map (fun doc => [title doc; url doc]) direct_index.

(** A host on which no [resize] ever throws. *)
Definition roomy_host : Host := mkHost (fun _ => true) (fun _ => true).

(** The run did not end with exit status 0: what a fatal load error
    means for the process. *)
Definition stops_on_load_error (run : outcome finished) : Prop :=
  forall f, run = Returned f -> status f <> 0.

(** A query file with the one query [cat], and no index file at all. *)
Definition no_index_files : SearcherFiles :=
  mkSearcherFiles
    (fun path => if (path =? "queries.txt")%string then Some ["cat"] else None)
    None None.

(** One record in the layout the loader decodes, cut off one byte before
    its end: the [doc_id] announces two characters and one is there. *)
Definition cut_direct_index : list byte :=
  write_string "Cats" ++ write_string "http://x/1"
  ++ u64_bytes 2 ++ chars "d".

Definition cut_index_files : SearcherFiles :=
  mkSearcherFiles
    (fun path => if (path =? "queries.txt")%string then Some ["cat"] else None)
    (Some cut_direct_index)
    (Some (inverted_index_bytes scenario_index)).

(** The corpus of the end-to-end scenarios: [d1] says "cat dog" and [d2]
    says "dog bird". *)
Definition scenario_corpus : list (option JsonDoc) :=
  [ Some (mkJsonDoc "d1" "First" "http://x/1" "cat dog");
    Some (mkJsonDoc "d2" "Second" "http://x/2" "dog bird") ].

(** Two documents in the order of their numbers, [9] then [10]; as
    strings, [10] comes before [9]. *)
Definition numbered_corpus : list (option JsonDoc) :=
  [ Some (mkJsonDoc "9" "Ninth" "http://x/9" "cat");
    Some (mkJsonDoc "10" "Tenth" "http://x/10" "cat dog") ].

(** A corpus that names [d2] before [d1], with a word said twice. *)
Definition unordered_corpus : list (option JsonDoc) :=
  [ Some (mkJsonDoc "d2" "Second" "http://x/2" "cat cat");
    Some (mkJsonDoc "d1" "First" "http://x/1" "cat dog") ].

(** The line was accepted by the JSON reader. *)
Definition is_parsed (line : option JsonDoc) : bool :=
  match line with Some _ => true | None => false end.

(** The build did not end well: no exit status 0 and no index file. *)
Definition aborts_without_output (run : outcome built) : Prop :=
  forall b, run = Returned b ->
            exit_status b <> 0 /\ direct_file b = None
            /\ inverted_file b = None.

(** The scenario corpus on a machine where [direct_index.bin] cannot be
    opened for writing and everything else can. *)
Definition direct_output_locked : BuilderWorld :=
  mkBuilderWorld (Some scenario_corpus) false true true.

(** The character [c] occurs in [s]. *)
Fixpoint mentions (c : ascii) (s : string) : bool :=
  match s with
  | EmptyString => false
  | String c' s' => (c' =? c)%char || mentions c s'
  end.

(** The token holds no quote mark. *)
Definition quote_free (token : string) : Prop := mentions dquote token = false.

(** Text without a quote mark and without an operator character. *)
Fixpoint plain (s : string) : bool :=
  match s with
  | EmptyString => true
  | String c s' =>
      negb (c =? dquote)%char && negb (is_operator_char c) && plain s'
  end.

(** The query text between a pair of quote marks, marks included. *)
Definition quoted (text : string) : string :=
  String dquote (text ++ String dquote EmptyString)%string.

(** The three locals of [parse_query] when its loop over the characters
    ends, before the test on [token] that follows the loop: the same loop
    as [parse_loop], stopped one step earlier. *)
Fixpoint lex_state (query : string) (tokens : list string) (token : string)
    (in_quotes : bool) {struct query} : list string * string * bool :=
  match query with
  | EmptyString => (tokens, token, in_quotes)
  | String c rest =>
      if (c =? dquote)%char && negb in_quotes then
        lex_state rest tokens token true
      else if (c =? dquote)%char && in_quotes then
        lex_state rest tokens token false
      else if is_separator c && negb in_quotes then
        lex_state rest (flush tokens token) "" in_quotes
      else if is_operator_char c then
        let tokens' := flush tokens token in
        match rest with
        | String c' rest' =>
            if (c' =? c)%char then
              lex_state rest' (push_back tokens' (String c (String c EmptyString))) ""
                in_quotes
            else
              lex_state rest (push_back tokens' (string_of_char c)) "" in_quotes
        | EmptyString =>
            lex_state rest (push_back tokens' (string_of_char c)) "" in_quotes
        end
      else
        lex_state rest tokens (token ++ string_of_char c)%string in_quotes
  end.

(** [x] is below every element of [l]. *)
Definition below (x : string) (l : list string) : Prop :=
  Forall (fun y => String.ltb x y = true) l.

(** ** Further notions: the lexer *)

(** Every character of [s] satisfies [R]. *)
Fixpoint string_all (R : ascii -> Prop) (s : string) : Prop :=
  match s with
  | EmptyString => True
  | String c s' => R c /\ string_all R s'
  end.

(** One operator character, or the same one twice: the tokens the operator
    branch of the lexer pushes. *)
Definition is_operator_token (t : string) : bool :=
  match t with
  | String c EmptyString => is_operator_char c
  | String c (String c' EmptyString) => is_operator_char c && (c' =? c)%char
  | _ => false
  end.

(** A character that is neither quote mark, operator character nor
    separator. *)
Definition is_word_char (c : ascii) : bool :=
  negb (c =? dquote)%char && negb (is_operator_char c) && negb (is_separator c).

(** Text made of such characters only. *)
Fixpoint wordy (s : string) : bool :=
  match s with
  | EmptyString => true
  | String c s' => is_word_char c && wordy s'
  end.

(** The query with every parenthesis replaced by a space. *)
Fixpoint blank_parentheses (s : string) : string :=
  match s with
  | EmptyString => EmptyString
  | String c s' =>
      String (if ((c =? "(") || (c =? ")"))%char then " "%char else c)
        (blank_parentheses s')
  end.

(** The words with one space between neighbours. *)
Definition spaced (words : list string) : string := String.concat " " words.

(** ** Further notions: the evaluator *)

(** The document identifier occurs in the postings of some entry. *)
Definition from_index (inverted_index : list InvertedIndex) (id : string)
    : Prop :=
  exists entry, In entry inverted_index /\ In id (doc_ids entry).

(** What an operator token makes of the two lists it pops: the chain of
    comparisons in the operator branch of [boolean_search]. *)
Definition operate (token : string) (left right : list string) : list string :=
  if (token =? "&&")%string then and_operation left right
  else if (token =? "||")%string then or_operation left right
  else if (token =? "!")%string then not_operation left right
  else [].

(** A word: non-empty text without quote mark, operator character or
    separator. *)
Definition word (w : string) : Prop := w <> "" /\ wordy w = true.

(** ** Further notions: the files *)

(** The line the searcher prints for a record of the direct index. *)
Definition document_line (doc : DirectIndex) : output :=
  Document (doc_id doc) (title doc) (url doc).

(** The least number of bytes an entry of the inverted index takes in a
    file: two length fields, and one more for each posting. *)
Definition entry_floor (entry : InvertedIndex) : nat :=
  (16 + 8 * List.length (doc_ids entry))%nat.

(** ** Further notions: the builder *)

(** A digit or a lower-case ASCII letter. *)
Definition is_lower_alnum (c : ascii) : bool :=
  let n := N_of_ascii c in
  ((48 <=? n) && (n <=? 57) || (97 <=? n) && (n <=? 122))%N.

(** Every character of [s] passes the test [f]. *)
Fixpoint every (f : ascii -> bool) (s : string) : bool :=
  match s with
  | EmptyString => true
  | String c s' => f c && every f s'
  end.

(** The shape of the terms of the index: non-empty, digits and lower-case
    letters only. *)
Definition is_term (t : string) : bool :=
  negb (t =? "")%string && every is_lower_alnum t.

(** The token occurrences of a corpus in the order the builder meets them,
    each with the document it occurs in. *)
Definition occurrences_of_line (line : option JsonDoc)
    : list (string * string) :=
  match line with
  | Some doc_data =>
      map (fun token => (token, json_doc_id doc_data))
        (parse_tokens (json_clean_text doc_data) [])
  | None => []
  end.

Definition occurrences (lines : list (option JsonDoc))
    : list (string * string) :=
  flat_map occurrences_of_line lines.

(** The documents of the occurrences of one term, in order and with
    repetitions. *)
Definition postings_of (occ : list (string * string)) (t : string)
    : list string :=
  map snd (filter (fun o => (fst o =? t)%string) occ).

(** The record the builder keeps for a line that parses. *)
Definition record_of_line (line : option JsonDoc) : list DirectIndex :=
  match line with
  | Some doc_data =>
      [mkDirectIndex (json_doc_id doc_data) (json_title doc_data)
         (json_normalized_url doc_data)]
  | None => []
  end.

(** The identifiers of the lines that parse, in order. *)
Definition parsed_ids (lines : list (option JsonDoc)) : list string :=
  map doc_id (flat_map record_of_line lines).

(** What the searcher's lookup must find for a term, given the
    occurrences indexed so far. *)
Definition lookup_spec (occ : list (string * string)) (t : string)
    : option (list string) :=
  if empty (postings_of occ t) then None else Some (postings_of occ t).

(** [total_terms] goes with the number of entries. *)
Definition terms_counted (state : list InvertedIndex * Z) : Prop :=
  snd state = Z.of_nat (List.length (fst state)) mod u64_max.

(** * Properties *)

(** ** The order on document identifiers *)

Lemma ltb_lt (x y : string) : String.ltb x y = true <-> String_as_OT.lt x y.
Proof.
  unfold String.ltb. rewrite <- String_as_OT.cmp_lt. unfold String_as_OT.cmp.
  destruct (String.compare x y); split; congruence.
Qed.

Lemma ltb_trans (x y z : string) :
  String.ltb x y = true -> String.ltb y z = true -> String.ltb x z = true.
Proof.
  rewrite !ltb_lt. apply String_as_OT.lt_trans.
Qed.

Lemma ltb_irrefl (x : string) : String.ltb x x = false.
Proof.
  destruct (String.ltb x x) eqn:E; [|reflexivity].
  apply ltb_lt in E. exfalso. exact (String_as_OT.lt_not_eq x x E eq_refl).
Qed.

Lemma ltb_asym (x y : string) :
  String.ltb x y = true -> String.ltb y x = false.
Proof.
  intros H. destruct (String.ltb y x) eqn:E; [|reflexivity].
  pose proof (ltb_trans _ _ _ H E) as C. rewrite ltb_irrefl in C. discriminate.
Qed.

Lemma ltb_connex (x y : string) :
  String.ltb x y = false -> String.ltb y x = false -> x = y.
Proof.
  unfold String.ltb. rewrite (String.compare_antisym y x).
  destruct (String.compare x y) eqn:E; simpl; try discriminate.
  intros _ _. now apply String.compare_eq_iff.
Qed.

Lemma ltb_neq (x y : string) : String.ltb x y = true -> x <> y.
Proof.
  intros H ->. rewrite ltb_irrefl in H. discriminate.
Qed.

(** ** Ascending lists *)

Lemma below_weaken (x y : string) (l : list string) :
  String.ltb x y = true -> below y l -> below x l.
Proof.
  intros Hxy Hy. unfold below in *. rewrite Forall_forall in *.
  intros z Hz. eapply ltb_trans; eauto.
Qed.

Lemma ascending_cons_inv (x : string) (l : list string) :
  ascending (x :: l) -> below x l /\ ascending l.
Proof.
  revert x. induction l as [|y l IH]; intros x H.
  - split; [constructor | reflexivity].
  - unfold ascending in H. simpl in H. apply andb_true_iff in H as [Hxy Hl].
    split; [|exact Hl].
    constructor; [exact Hxy|].
    destruct (IH y Hl) as [Hy _]. eapply below_weaken; eauto.
Qed.

Lemma ascending_cons (x : string) (l : list string) :
  below x l -> ascending l -> ascending (x :: l).
Proof.
  intros Hb Hl. destruct l as [|y l]; [reflexivity|].
  unfold ascending. simpl. inversion Hb; subst.
  apply andb_true_iff. split; assumption.
Qed.

Lemma below_not_mem (x : string) (l : list string) :
  below x l -> mem x l = false.
Proof.
  induction 1 as [|y l Hy _ IH]; [reflexivity|].
  simpl. rewrite IH, orb_false_r. apply String.eqb_neq. now apply ltb_neq.
Qed.

Lemma below_not_in (x : string) (l : list string) : below x l -> ~ In x l.
Proof.
  unfold below. rewrite Forall_forall. intros H Hin.
  specialize (H _ Hin). rewrite ltb_irrefl in H. discriminate.
Qed.

Lemma mem_in (x : string) (l : list string) : mem x l = true <-> In x l.
Proof.
  unfold mem. rewrite existsb_exists. split.
  - intros [y [Hy E]]. apply String.eqb_eq in E. now subst.
  - intros H. exists x. split; [exact H | apply String.eqb_refl].
Qed.

Lemma ascending_NoDup (l : list string) : ascending l -> NoDup l.
Proof.
  induction l as [|x l IH]; intros H; [constructor|].
  apply ascending_cons_inv in H as [Hb Hl].
  constructor; [now apply below_not_in | auto].
Qed.

Lemma ascending_filter (f : string -> bool) (l : list string) :
  ascending l -> ascending (filter f l).
Proof.
  induction l as [|x l IH]; intros H; [reflexivity|].
  apply ascending_cons_inv in H as [Hb Hl]. simpl.
  destruct (f x); [|auto].
  apply ascending_cons; [|auto].
  unfold below in *. rewrite Forall_forall in *.
  intros y Hy. apply filter_In in Hy as [Hy _]. auto.
Qed.

(** Two ascending lists with the same elements are the same list: an
    ascending list is determined by the set it stands for. *)
Lemma ascending_ext (l1 l2 : list string) :
  ascending l1 -> ascending l2 ->
  (forall x, In x l1 <-> In x l2) -> l1 = l2.
Proof.
  revert l2. induction l1 as [|x l1 IH]; intros l2 H1 H2 Hext.
  - destruct l2 as [|y l2]; [reflexivity|].
    exfalso. apply (proj2 (Hext y)). now left.
  - destruct l2 as [|y l2].
    + exfalso. apply (proj1 (Hext x)). now left.
    + apply ascending_cons_inv in H1 as [Hb1 Hl1].
      apply ascending_cons_inv in H2 as [Hb2 Hl2].
      assert (x = y) as ->.
      { destruct (proj1 (Hext x) (or_introl eq_refl)) as [E|Hin]; [now subst|].
        destruct (proj2 (Hext y) (or_introl eq_refl)) as [E|Hin']; [now subst|].
        unfold below in *. rewrite Forall_forall in *.
        pose proof (Hb2 _ Hin) as A. pose proof (Hb1 _ Hin') as B.
        rewrite (ltb_asym _ _ A) in B. discriminate. }
      f_equal. apply IH; auto.
      intros z. split; intros Hz.
      * destruct (proj1 (Hext z) (or_intror Hz)) as [E|Hin]; [|exact Hin].
        subst. exfalso. exact (below_not_in _ _ Hb1 Hz).
      * destruct (proj2 (Hext z) (or_intror Hz)) as [E|Hin]; [|exact Hin].
        subst. exfalso. exact (below_not_in _ _ Hb2 Hz).
Qed.

(** ** The three set algorithms on ascending lists *)

Lemma set_intersection_cons (x y : string) (l1 l2 : list string) :
  set_intersection (x :: l1) (y :: l2) =
  if String.ltb x y then set_intersection l1 (y :: l2)
  else if String.ltb y x then set_intersection (x :: l1) l2
  else x :: set_intersection l1 l2.
Proof. reflexivity. Qed.

Lemma set_union_cons (x y : string) (l1 l2 : list string) :
  set_union (x :: l1) (y :: l2) =
  if String.ltb x y then x :: set_union l1 (y :: l2)
  else if String.ltb y x then y :: set_union (x :: l1) l2
  else x :: set_union l1 l2.
Proof. reflexivity. Qed.

Lemma set_difference_cons (x y : string) (l1 l2 : list string) :
  set_difference (x :: l1) (y :: l2) =
  if String.ltb x y then x :: set_difference l1 (y :: l2)
  else if String.ltb y x then set_difference (x :: l1) l2
  else set_difference l1 l2.
Proof. reflexivity. Qed.

Lemma set_intersection_nil_r (l : list string) : set_intersection l [] = [].
Proof. destruct l; reflexivity. Qed.

Lemma set_union_nil_r (l : list string) : set_union l [] = l.
Proof. destruct l; reflexivity. Qed.

Lemma set_difference_nil_r (l : list string) : set_difference l [] = l.
Proof. destruct l; reflexivity. Qed.

(** Membership in a list whose head lies below the element looked for. *)
Lemma mem_skip (y a : string) (l : list string) :
  String.ltb y a = true -> mem a (y :: l) = mem a l.
Proof.
  intros H. simpl.
  replace (a =? y)%string with false; [reflexivity|].
  symmetry. apply String.eqb_neq. intros ->. rewrite ltb_irrefl in H. discriminate.
Qed.

Lemma filter_mem_skip (f : bool -> bool) (y : string) (l1 l2 : list string) :
  below y l1 ->
  filter (fun a => f (mem a (y :: l2))) l1 = filter (fun a => f (mem a l2)) l1.
Proof.
  intros Hb. apply filter_ext_in. intros a Ha.
  unfold below in Hb. rewrite Forall_forall in Hb.
  now rewrite mem_skip by auto.
Qed.

Lemma mem_head (x : string) (l : list string) : mem x (x :: l) = true.
Proof. simpl. now rewrite String.eqb_refl. Qed.

Lemma filter_mem_nil (l : list string) : filter (fun a => mem a []) l = [].
Proof. induction l; simpl; auto. Qed.

Lemma filter_not_mem_nil (l : list string) :
  filter (fun a => negb (mem a [])) l = l.
Proof. induction l as [|x l IH]; simpl; [reflexivity | now f_equal]. Qed.

Lemma set_intersection_filter (l1 l2 : list string) :
  ascending l1 -> ascending l2 ->
  set_intersection l1 l2 = filter (fun a => mem a l2) l1.
Proof.
  revert l2. induction l1 as [|x l1 IH1]; intros l2 H1 H2; [reflexivity|].
  apply ascending_cons_inv in H1 as [Hb1 Hl1].
  induction l2 as [|y l2 IH2].
  - now rewrite set_intersection_nil_r, filter_mem_nil.
  - pose proof H2 as H2'. apply ascending_cons_inv in H2' as [Hb2 Hl2].
    rewrite set_intersection_cons.
    destruct (String.ltb x y) eqn:Exy.
    + rewrite IH1 by assumption.
      cbn [filter].
      rewrite (below_not_mem x (y :: l2)); [reflexivity|].
      constructor; [exact Exy|]. eapply below_weaken; eauto.
    + destruct (String.ltb y x) eqn:Eyx.
      * rewrite IH2 by assumption.
        symmetry. apply (filter_mem_skip (fun b => b) y (x :: l1) l2).
        constructor; [exact Eyx|]. eapply below_weaken; eauto.
      * pose proof (ltb_connex _ _ Exy Eyx) as ->.
        rewrite IH1 by assumption.
        cbn [filter]. rewrite mem_head.
        f_equal. symmetry. now apply (filter_mem_skip (fun b => b) _ l1 l2).
Qed.

Lemma set_difference_filter (l1 l2 : list string) :
  ascending l1 -> ascending l2 ->
  set_difference l1 l2 = filter (fun a => negb (mem a l2)) l1.
Proof.
  revert l2. induction l1 as [|x l1 IH1]; intros l2 H1 H2; [reflexivity|].
  apply ascending_cons_inv in H1 as [Hb1 Hl1].
  induction l2 as [|y l2 IH2].
  - now rewrite set_difference_nil_r, filter_not_mem_nil.
  - pose proof H2 as H2'. apply ascending_cons_inv in H2' as [Hb2 Hl2].
    rewrite set_difference_cons.
    destruct (String.ltb x y) eqn:Exy.
    + rewrite IH1 by assumption.
      cbn [filter].
      rewrite (below_not_mem x (y :: l2)); [reflexivity|].
      constructor; [exact Exy|]. eapply below_weaken; eauto.
    + destruct (String.ltb y x) eqn:Eyx.
      * rewrite IH2 by assumption.
        symmetry. apply (filter_mem_skip negb y (x :: l1) l2).
        constructor; [exact Eyx|]. eapply below_weaken; eauto.
      * pose proof (ltb_connex _ _ Exy Eyx) as ->.
        rewrite IH1 by assumption.
        cbn [filter]. rewrite mem_head. cbn [negb].
        symmetry. now apply (filter_mem_skip negb _ l1 l2).
Qed.

Lemma set_union_in (l1 l2 : list string) (a : string) :
  In a (set_union l1 l2) <-> In a l1 \/ In a l2.
Proof.
  revert l2. induction l1 as [|x l1 IH1]; intros l2.
  - simpl. tauto.
  - induction l2 as [|y l2 IH2].
    + rewrite set_union_nil_r. simpl. tauto.
    + rewrite set_union_cons.
      destruct (String.ltb x y) eqn:Exy; [|destruct (String.ltb y x) eqn:Eyx].
      * simpl. rewrite IH1. simpl. tauto.
      * simpl. rewrite IH2. simpl. tauto.
      * pose proof (ltb_connex _ _ Exy Eyx) as ->.
        simpl. rewrite IH1. tauto.
Qed.

Lemma set_union_below (z : string) (l1 l2 : list string) :
  below z l1 -> below z l2 -> below z (set_union l1 l2).
Proof.
  unfold below. rewrite !Forall_forall. intros H1 H2 a Ha.
  apply set_union_in in Ha as [Ha|Ha]; auto.
Qed.

Lemma set_union_ascending (l1 l2 : list string) :
  ascending l1 -> ascending l2 -> ascending (set_union l1 l2).
Proof.
  revert l2. induction l1 as [|x l1 IH1]; intros l2 H1 H2; [exact H2|].
  pose proof H1 as H1'. apply ascending_cons_inv in H1' as [Hb1 Hl1].
  induction l2 as [|y l2 IH2].
  - now rewrite set_union_nil_r.
  - pose proof H2 as H2'. apply ascending_cons_inv in H2' as [Hb2 Hl2].
    rewrite set_union_cons.
    destruct (String.ltb x y) eqn:Exy; [|destruct (String.ltb y x) eqn:Eyx].
    + apply ascending_cons; [|now apply IH1].
      apply set_union_below; [exact Hb1|].
      constructor; [exact Exy|]. eapply below_weaken; eauto.
    + apply ascending_cons; [|now apply IH2].
      apply set_union_below; [|exact Hb2].
      constructor; [exact Eyx|]. eapply below_weaken; eauto.
    + pose proof (ltb_connex _ _ Exy Eyx) as ->.
      apply ascending_cons; [|now apply IH1].
      now apply set_union_below.
Qed.

(** ** The evaluator operations *)

(** [and_operation] is the intersection, an empty operand included. *)
Lemma and_operation_intersection (left right : list string) :
  ascending left -> ascending right ->
  and_operation left right = filter (fun a => mem a right) left
  /\ ascending (and_operation left right).
Proof.
  intros Hl Hr.
  assert (E : and_operation left right = filter (fun a => mem a right) left).
  { unfold and_operation. destruct left as [|x left]; [reflexivity|].
    destruct right as [|y right].
    - simpl orb. cbv iota. now rewrite filter_mem_nil.
    - now apply set_intersection_filter. }
  split; [exact E|]. rewrite E. now apply ascending_filter.
Qed.

(** [not_operation] is the difference, an empty operand included. *)
Lemma not_operation_difference (left right : list string) :
  ascending left -> ascending right ->
  not_operation left right = filter (fun a => negb (mem a right)) left
  /\ ascending (not_operation left right).
Proof.
  intros Hl Hr.
  assert (E : not_operation left right
              = filter (fun a => negb (mem a right)) left).
  { unfold not_operation. destruct left as [|x left]; [reflexivity|].
    now apply set_difference_filter. }
  split; [exact E|]. rewrite E. now apply ascending_filter.
Qed.

Lemma not_operation_in (left right : list string) (a : string) :
  ascending left -> ascending right ->
  (In a (not_operation left right) <-> In a left /\ ~ In a right).
Proof.
  intros Hl Hr. destruct (not_operation_difference left right Hl Hr) as [-> _].
  rewrite filter_In, negb_true_iff, <- (mem_in a right).
  destruct (mem a right); intuition congruence.
Qed.

(** [or_operation] is the union as long as neither operand is empty. *)
Lemma or_operation_union (left right : list string) :
  left <> [] -> right <> [] ->
  ascending left -> ascending right ->
  (forall a, In a (or_operation left right) <-> In a left \/ In a right)
  /\ ascending (or_operation left right).
Proof.
  intros Nl Nr Hl Hr.
  assert (E : or_operation left right = set_union left right).
  { unfold or_operation. destruct left; [congruence|].
    destruct right; [congruence|]. reflexivity. }
  rewrite E. split; [intros a; apply set_union_in | now apply set_union_ascending].
Qed.

(** With an empty operand [or_operation] takes the early return of
    [and_operation] and yields nothing. *)
Lemma or_operation_empty_operand (left right : list string) :
  left = [] \/ right = [] -> or_operation left right = [].
Proof.
  unfold or_operation. intros [-> | ->]; [reflexivity|].
  now rewrite orb_true_r.
Qed.

(** C3 (the code departs from the claim). [or_operation] on an ascending
    list and the empty list returns the empty list instead of the union,
    here for the postings [d1] and no postings; the query
    [cat bird && dog ||] over the scenario index reaches that case through
    the empty result of its [&&] and answers nothing, although [dog] has
    two documents. *)
Theorem or_operation_loses_the_nonempty_operand :
  ascending ["d1"] /\ ascending [] /\
  or_operation ["d1"] [] = [] /\
  or_operation [] ["d1"] = [] /\
  (exists a, (In a ["d1"] \/ In a []) /\ ~ In a (or_operation ["d1"] [])) /\
  boolean_search "cat bird && dog ||" scenario_index [] = [].
Proof.
  repeat split.
  exists "d1". split; [left; now left | simpl; tauto].
Qed.

(** ** The stack machine *)

Lemma back_push_back {A : Type} (d : A) (v : list A) (x : A) :
  back d (push_back v x) = x.
Proof. apply last_last. Qed.

Lemma pop_back_push_back {A : Type} (v : list A) (x : A) :
  pop_back (push_back v x) = v.
Proof. apply removelast_last. Qed.

(** A vector of two or more elements ends in a [left] below a [right]. *)
Lemma two_on_top {A : Type} (v : list A) :
  (2 <= List.length v)%nat -> exists rest left right, v = rest ++ [left; right].
Proof.
  intros H.
  destruct (exists_last (l := v)) as [v1 [right E1]].
  { intros ->. simpl in H. lia. }
  subst v. rewrite length_app in H. simpl in H.
  destruct (exists_last (l := v1)) as [rest [left E2]].
  { intros ->. simpl in H. lia. }
  subst v1. exists rest, left, right. now rewrite <- app_assoc.
Qed.

Lemma eval_operator_two (inverted_index : list InvertedIndex)
    (rest : list (list string)) (left right : list string) (token : string) :
  is_operator token = true ->
  eval_token inverted_index (rest ++ [left; right]) token =
  rest ++ [if (token =? "&&")%string then and_operation left right
           else if (token =? "||")%string then or_operation left right
           else if (token =? "!")%string then not_operation left right
           else []].
Proof.
  intros Hop. unfold eval_token. rewrite Hop.
  replace (List.length (rest ++ [left; right]) <? 2)%nat with false.
  2:{ symmetry. apply Nat.ltb_ge. rewrite length_app. simpl. lia. }
  replace (rest ++ [left; right])
    with (push_back (push_back rest left) right).
  2:{ unfold push_back. now rewrite <- app_assoc. }
  now rewrite back_push_back, !pop_back_push_back, back_push_back.
Qed.

Lemma lookup_term_unknown (inverted_index : list InvertedIndex) (token : string) :
  (forall entry, In entry inverted_index -> term entry <> token) ->
  lookup_term inverted_index token = None.
Proof.
  induction inverted_index as [|entry others IH]; intros H; [reflexivity|].
  simpl. destruct (String.eqb_spec (term entry) token) as [E|_].
  - exfalso. apply (H entry); [now left | exact E].
  - apply IH. intros e He. apply H. now right.
Qed.

(** C7. [!] is the binary difference: the query [dog cat !] over the
    scenario index answers [d2]; on any stack of two or more lists the
    token [!] replaces the two lists on top, [left] under [right], by
    [not_operation left right]; and for ascending operands that list holds
    exactly the elements of [left] that are not in [right], in ascending
    order. *)
Theorem bang_is_binary_difference :
  boolean_search "dog cat !" scenario_index [] = ["d2"]
  /\ (forall (inverted_index : list InvertedIndex)
             (stack : list (list string)),
        (2 <= List.length stack)%nat ->
        exists rest left right,
          stack = rest ++ [left; right] /\
          eval_token inverted_index stack "!"
          = rest ++ [not_operation left right])
  /\ (forall left right : list string,
        ascending left -> ascending right ->
        (forall a, In a (not_operation left right)
                   <-> In a left /\ ~ In a right)
        /\ ascending (not_operation left right)).
Proof.
  split; [reflexivity|]. split.
  - intros inverted_index stack H.
    destruct (two_on_top stack H) as [rest [left [right ->]]].
    exists rest, left, right. split; [reflexivity|].
    now rewrite eval_operator_two.
  - intros left right Hl Hr. split.
    + intros a. now apply not_operation_in.
    + now apply not_operation_difference.
Qed.

Lemma bang_is_binary_difference_witness :
  (exists rest left right,
      [["d1"; "d2"]; ["d1"]] = rest ++ [left; right] /\
      eval_token scenario_index [["d1"; "d2"]; ["d1"]] "!"
      = rest ++ [not_operation left right])
  /\ ((forall a, In a (not_operation ["d1"; "d2"] ["d1"])
                 <-> In a ["d1"; "d2"] /\ ~ In a ["d1"])
      /\ ascending (not_operation ["d1"; "d2"] ["d1"])).
Proof.
  destruct bang_is_binary_difference as [_ [step difference]].
  split.
  - apply (step scenario_index [["d1"; "d2"]; ["d1"]]). simpl. lia.
  - apply (difference ["d1"; "d2"] ["d1"]); reflexivity.
Defined.

(** C8. An operator token met with fewer than two lists on the stack
    leaves the stack as it is: nothing is popped and nothing is pushed. *)
Theorem operator_underflow_is_noop :
  forall (inverted_index : list InvertedIndex) (stack : list (list string))
         (token : string),
    is_operator token = true ->
    (List.length stack < 2)%nat ->
    eval_token inverted_index stack token = stack.
Proof.
  intros inverted_index stack token Hop H.
  unfold eval_token. rewrite Hop.
  now apply Nat.ltb_lt in H as ->.
Qed.

Lemma operator_underflow_is_noop_witness :
  eval_token scenario_index [["d1"]] "||" = [["d1"]].
Proof.
  apply (operator_underflow_is_noop scenario_index [["d1"]] "||").
  - reflexivity.
  - simpl. lia.
Defined.

(** C9. An operand that is the term of no entry of the inverted index
    leaves the stack as it is; a query that is one such operand ends with
    the empty stack and answers the empty list. *)
Theorem unknown_operand_pushes_nothing :
  forall (inverted_index : list InvertedIndex) (token : string),
    is_operator token = false ->
    (forall entry, In entry inverted_index -> term entry <> token) ->
    (forall stack, eval_token inverted_index stack token = stack)
    /\ (forall query direct_index,
          parse_query query = [token] ->
          eval_tokens inverted_index (parse_query query) [] = []
          /\ boolean_search query inverted_index direct_index = []).
Proof.
  intros inverted_index token Hop Hunknown.
  assert (step : forall stack, eval_token inverted_index stack token = stack).
  { intros stack. unfold eval_token. rewrite Hop.
    now rewrite lookup_term_unknown. }
  split; [exact step|].
  intros query direct_index Hq.
  assert (E : eval_tokens inverted_index (parse_query query) [] = []).
  { rewrite Hq. unfold eval_tokens. simpl. apply step. }
  split; [exact E|]. unfold boolean_search. now rewrite E.
Qed.

Lemma unknown_operand_pushes_nothing_witness :
  eval_token scenario_index [["d1"]] "fish" = [["d1"]]
  /\ eval_tokens scenario_index (parse_query "fish") [] = []
  /\ boolean_search "fish" scenario_index [] = [].
Proof.
  destruct (unknown_operand_pushes_nothing scenario_index "fish")
    as [step alone].
  - reflexivity.
  - intros entry Hin. simpl in Hin.
    destruct Hin as [<- | [<- | [<- | []]]]; discriminate.
  - split; [apply step|]. apply (alone "fish" []). reflexivity.
Defined.

(** ** The lexer *)

Lemma append_nil_r (s : string) : (s ++ "")%string = s.
Proof. induction s as [|c s IH]; simpl; congruence. Qed.

Lemma append_assoc (s1 s2 s3 : string) :
  ((s1 ++ s2) ++ s3)%string = (s1 ++ (s2 ++ s3))%string.
Proof. induction s1 as [|c s1 IH]; simpl; congruence. Qed.

Lemma mentions_append (c : ascii) (s1 s2 : string) :
  mentions c (s1 ++ s2)%string = mentions c s1 || mentions c s2.
Proof.
  induction s1 as [|c1 s1 IH]; simpl; [reflexivity|].
  now rewrite IH, orb_assoc.
Qed.

Lemma quote_free_flush (tokens : list string) (token : string) :
  Forall quote_free tokens -> quote_free token ->
  Forall quote_free (flush tokens token).
Proof.
  intros Ht Hk. unfold flush. destruct (token =? "")%string; [exact Ht|].
  apply Forall_app. split; [exact Ht | now constructor].
Qed.

Lemma quote_free_push (tokens : list string) (token : string) :
  Forall quote_free tokens -> quote_free token ->
  Forall quote_free (push_back tokens token).
Proof.
  intros Ht Hk. apply Forall_app. split; [exact Ht | now constructor].
Qed.

(** The invariant of the loop of [parse_query], by induction on the
    number of characters left: the operator branch may consume two. *)
Lemma parse_loop_quote_free (n : nat) :
  forall (query : string) (tokens : list string) (token : string)
         (in_quotes : bool),
    (String.length query <= n)%nat ->
    Forall quote_free tokens -> quote_free token ->
    Forall quote_free (parse_loop query tokens token in_quotes).
Proof.
  induction n as [|n IH]; intros query tokens token in_quotes Hn Ht Hk.
  - destruct query; [|simpl in Hn; lia]. now apply quote_free_flush.
  - destruct query as [|c rest]; [now apply quote_free_flush|].
    simpl in Hn. cbn [parse_loop].
    destruct (c =? dquote)%char eqn:Eq.
    + destruct in_quotes; simpl; apply IH; auto; lia.
    + cbn [andb].
      destruct (is_separator c && negb in_quotes).
      * apply IH; [lia | now apply quote_free_flush | reflexivity].
      * destruct (is_operator_char c) eqn:Eop.
        -- assert (Hc : quote_free (string_of_char c)).
           { unfold quote_free. simpl. now rewrite Eq. }
           assert (Hcc : quote_free (String c (String c EmptyString))).
           { unfold quote_free. simpl. now rewrite Eq. }
           destruct rest as [|c' rest'].
           ++ apply IH; [simpl; lia | | reflexivity].
              apply quote_free_push; [now apply quote_free_flush | exact Hc].
           ++ simpl in Hn. destruct (c' =? c)%char.
              ** apply IH; [lia | | reflexivity].
                 apply quote_free_push;
                   [now apply quote_free_flush | exact Hcc].
              ** apply IH; [simpl; lia | | reflexivity].
                 apply quote_free_push;
                   [now apply quote_free_flush | exact Hc].
        -- apply IH; [lia | exact Ht |].
           unfold quote_free. rewrite mentions_append, Hk. simpl.
           now rewrite Eq.
Qed.

(** Inside quotes, plain text is appended to the operand being built. *)
Lemma parse_loop_quoted_plain (text rest : string) :
  forall (tokens : list string) (token : string),
    plain text = true ->
    parse_loop (text ++ rest) tokens token true
    = parse_loop rest tokens (token ++ text) true.
Proof.
  induction text as [|c text IH]; intros tokens token Hp.
  - simpl. now rewrite append_nil_r.
  - simpl in Hp. apply andb_true_iff in Hp as [Hc Hp].
    apply andb_true_iff in Hc as [Hq Hop].
    apply negb_true_iff in Hq. apply negb_true_iff in Hop.
    cbn [append parse_loop]. rewrite Hq, Hop. cbn [andb negb].
    rewrite andb_false_r. rewrite IH by exact Hp.
    now rewrite append_assoc.
Qed.

(** A pair of quote marks around plain text, spaces and parentheses
    included, adds the text to the operand being built and splits
    nothing. *)
Lemma parse_loop_quoted (text rest : string) (tokens : list string)
    (token : string) :
  plain text = true ->
  parse_loop (quoted text ++ rest) tokens token false
  = parse_loop rest tokens (token ++ text) false.
Proof.
  intros Hp. unfold quoted. cbn [append parse_loop].
  rewrite Ascii.eqb_refl. cbn [andb negb].
  rewrite append_assoc, parse_loop_quoted_plain by exact Hp.
  cbn [append parse_loop]. now rewrite Ascii.eqb_refl.
Qed.

Lemma flush_nonempty (tokens : list string) (token : string) :
  token <> "" -> flush tokens token = tokens ++ [token].
Proof.
  intros H. unfold flush. now apply String.eqb_neq in H as ->.
Qed.

Lemma parse_query_quoted (text : string) :
  plain text = true -> text <> "" -> parse_query (quoted text) = [text].
Proof.
  intros Hp Hne. unfold parse_query.
  rewrite <- (append_nil_r (quoted text)), parse_loop_quoted by exact Hp.
  simpl. now apply flush_nonempty.
Qed.

Lemma operator_char_not_dquote (c : ascii) :
  is_operator_char c = true -> (c =? dquote)%char = false.
Proof.
  unfold is_operator_char. intros H.
  apply orb_true_iff in H as [H|H]; [apply orb_true_iff in H as [H|H]|];
    apply Ascii.eqb_eq in H; subst; reflexivity.
Qed.

Lemma operator_char_not_separator (c : ascii) :
  is_operator_char c = true -> is_separator c = false.
Proof.
  unfold is_operator_char. intros H.
  apply orb_true_iff in H as [H|H]; [apply orb_true_iff in H as [H|H]|];
    apply Ascii.eqb_eq in H; subst; reflexivity.
Qed.

(** The operator branch, taken whatever [in_quotes] says: a single
    operator character ends the operand and becomes a token. *)
Lemma parse_loop_operator (c c' : ascii) (rest : string)
    (tokens : list string) (token : string) (in_quotes : bool) :
  is_operator_char c = true -> (c' =? c)%char = false ->
  parse_loop (String c (String c' rest)) tokens token in_quotes
  = parse_loop (String c' rest)
      (push_back (flush tokens token) (string_of_char c)) "" in_quotes.
Proof.
  intros Hc Hne. cbn [parse_loop].
  rewrite (operator_char_not_dquote c Hc), (operator_char_not_separator c Hc).
  cbn [andb]. now rewrite Hc, Hne.
Qed.

(** An operator character between two stretches of plain text inside one
    pair of quotes: three tokens come out, the operator one of them. *)
Lemma parse_query_quoted_operator (a b : string) (c : ascii) :
  plain a = true -> plain b = true -> a <> "" -> b <> "" ->
  is_operator_char c = true ->
  parse_query (quoted (a ++ String c b)) = [a; string_of_char c; b].
Proof.
  intros Ha Hb Na Nb Hc. unfold parse_query, quoted.
  cbn [parse_loop]. rewrite Ascii.eqb_refl. cbn [andb negb].
  rewrite append_assoc, parse_loop_quoted_plain by exact Ha.
  destruct b as [|c' b']; [congruence|].
  assert (Hne : (c' =? c)%char = false).
  { cbn [plain] in Hb. apply andb_true_iff in Hb as [Hb _].
    apply andb_true_iff in Hb as [_ Hb]. apply negb_true_iff in Hb.
    apply Ascii.eqb_neq. intros ->. congruence. }
  cbn [append]. rewrite parse_loop_operator by assumption.
  change (String c' (b' ++ String dquote ""))%string
    with (String c' b' ++ String dquote "")%string.
  rewrite parse_loop_quoted_plain by exact Hb.
  cbn [parse_loop]. rewrite Ascii.eqb_refl. cbn [andb negb append].
  rewrite (flush_nonempty _ _ Nb), (flush_nonempty _ _ Na).
  reflexivity.
Qed.

(** C5 (the code departs from the claim). Between quote marks the lexer
    keeps spaces and parentheses in the operand, but the branch for [&],
    [|] and [!] does not look at [in_quotes]: an operator character inside
    quotes ends the operand and is emitted as an operator token. *)
Theorem quoted_operator_characters_split_the_operand :
  parse_query (quoted "a&b") = ["a"; "&"; "b"]
  /\ parse_query (quoted "a||b") = ["a"; "||"; "b"]
  /\ parse_query (quoted "!") = ["!"]
  /\ parse_query (quoted "a (b) c") = ["a (b) c"].
Proof. repeat split. Qed.

(** One pass through the body of the loop, for [parse_loop] and for
    [lex_state]. *)
Lemma parse_loop_cons (c : ascii) (rest : string) (tokens : list string)
    (token : string) (in_quotes : bool) :
  parse_loop (String c rest) tokens token in_quotes =
  if (c =? dquote)%char && negb in_quotes then
    parse_loop rest tokens token true
  else if (c =? dquote)%char && in_quotes then
    parse_loop rest tokens token false
  else if is_separator c && negb in_quotes then
    parse_loop rest (flush tokens token) "" in_quotes
  else if is_operator_char c then
    match rest with
    | String c' rest' =>
        if (c' =? c)%char then
          parse_loop rest'
            (push_back (flush tokens token) (String c (String c EmptyString)))
            "" in_quotes
        else
          parse_loop rest
            (push_back (flush tokens token) (string_of_char c)) "" in_quotes
    | EmptyString =>
        parse_loop rest
          (push_back (flush tokens token) (string_of_char c)) "" in_quotes
    end
  else parse_loop rest tokens (token ++ string_of_char c) in_quotes.
Proof. destruct rest; reflexivity. Qed.

Lemma lex_state_cons (c : ascii) (rest : string) (tokens : list string)
    (token : string) (in_quotes : bool) :
  lex_state (String c rest) tokens token in_quotes =
  if (c =? dquote)%char && negb in_quotes then
    lex_state rest tokens token true
  else if (c =? dquote)%char && in_quotes then
    lex_state rest tokens token false
  else if is_separator c && negb in_quotes then
    lex_state rest (flush tokens token) "" in_quotes
  else if is_operator_char c then
    match rest with
    | String c' rest' =>
        if (c' =? c)%char then
          lex_state rest'
            (push_back (flush tokens token) (String c (String c EmptyString)))
            "" in_quotes
        else
          lex_state rest
            (push_back (flush tokens token) (string_of_char c)) "" in_quotes
    | EmptyString =>
        lex_state rest
          (push_back (flush tokens token) (string_of_char c)) "" in_quotes
    end
  else lex_state rest tokens (token ++ string_of_char c) in_quotes.
Proof. destruct rest; reflexivity. Qed.

(** What [parse_query] returns is the vector at the end of the loop with
    the operand under construction pushed if it is not empty, whether the
    loop ends inside quotes or outside. *)
Lemma parse_loop_lex_state (n : nat) :
  forall (query : string) (tokens : list string) (token : string)
         (in_quotes : bool),
    (String.length query <= n)%nat ->
    parse_loop query tokens token in_quotes
    = flush (fst (fst (lex_state query tokens token in_quotes)))
        (snd (fst (lex_state query tokens token in_quotes))).
Proof.
  induction n as [|n IH]; intros query tokens token in_quotes Hn.
  - destruct query; [reflexivity | simpl in Hn; lia].
  - destruct query as [|c rest]; [reflexivity|].
    simpl in Hn. rewrite parse_loop_cons, lex_state_cons.
    destruct ((c =? dquote)%char && negb in_quotes); [apply IH; lia|].
    destruct ((c =? dquote)%char && in_quotes); [apply IH; lia|].
    destruct (is_separator c && negb in_quotes); [apply IH; lia|].
    destruct (is_operator_char c); [|apply IH; lia].
    destruct rest as [|c' rest']; [apply IH; simpl; lia|].
    simpl in Hn. destruct (c' =? c)%char; apply IH; simpl; lia.
Qed.

(** The loop up to a quote mark, and from the quote mark on: the operator
    branch looks one character ahead, but a quote mark is no operator. *)
Lemma lex_state_before_quote (n : nat) :
  forall (before rest : string) (tokens : list string) (token : string)
         (in_quotes : bool),
    (String.length before <= n)%nat ->
    lex_state (before ++ String dquote rest) tokens token in_quotes
    = lex_state (String dquote rest)
        (fst (fst (lex_state before tokens token in_quotes)))
        (snd (fst (lex_state before tokens token in_quotes)))
        (snd (lex_state before tokens token in_quotes)).
Proof.
  induction n as [|n IH]; intros before rest tokens token in_quotes Hn.
  - destruct before; [reflexivity | simpl in Hn; lia].
  - destruct before as [|c before']; [reflexivity|].
    simpl in Hn. cbn [append].
    rewrite (lex_state_cons c (before' ++ String dquote rest)).
    rewrite (lex_state_cons c before').
    destruct ((c =? dquote)%char && negb in_quotes); [apply IH; lia|].
    destruct ((c =? dquote)%char && in_quotes); [apply IH; lia|].
    destruct (is_separator c && negb in_quotes); [apply IH; lia|].
    destruct (is_operator_char c) eqn:Eop; [|apply IH; lia].
    destruct before' as [|c' before''].
    + cbn [append].
      replace (dquote =? c)%char with false; [reflexivity|].
      symmetry. rewrite Ascii.eqb_sym. now apply operator_char_not_dquote.
    + simpl in Hn. cbn [append]. destruct (c' =? c)%char.
      * apply IH. lia.
      * change (String c' (before'' ++ String dquote rest))
          with (String c' before'' ++ String dquote rest)%string.
        apply IH. simpl. lia.
Qed.

(** Inside quotes plain text only grows the operand, and the loop ends
    inside the quotes. *)
Lemma lex_state_quoted_plain (text : string) :
  forall (tokens : list string) (token : string),
    plain text = true ->
    lex_state text tokens token true = (tokens, (token ++ text)%string, true).
Proof.
  induction text as [|c text IH]; intros tokens token Hp.
  - cbn [lex_state]. now rewrite append_nil_r.
  - cbn [plain] in Hp. apply andb_true_iff in Hp as [Hc Hp].
    apply andb_true_iff in Hc as [Hq Hop].
    apply negb_true_iff in Hq. apply negb_true_iff in Hop.
    rewrite lex_state_cons, Hq, Hop. cbn [andb negb].
    rewrite andb_false_r, IH by exact Hp. now rewrite append_assoc.
Qed.

(** C10. No token of [parse_query] contains the quote mark, whatever the
    query. A quote mark that is never closed is accepted, wherever in the
    query it stands: for every query the result is the vector at the end of
    the loop with the operand under construction pushed when it is not
    empty, whether the loop ends inside quotes or not; so when a query goes
    on, outside quotes, with a quote mark and plain text up to its end, the
    loop ends inside the quotes and the text, joined to the operand that
    was open before the quote mark, is the last token. In particular the
    plain text after a quote mark that opens the query is the one token of
    the query. *)
Theorem quote_mark_never_emitted :
  (forall query : string,
      Forall quote_free (parse_query query))
  /\ parse_query (String dquote "abc") = ["abc"]
  /\ (forall text : string,
        plain text = true -> text <> "" ->
        parse_query (String dquote text) = [text])
  /\ (forall (query : string) (tokens : list string) (token : string)
             (in_quotes : bool),
        lex_state query [] "" false = (tokens, token, in_quotes) ->
        parse_query query = flush tokens token)
  /\ (forall (tokens : list string) (token text : string),
        plain text = true ->
        parse_loop (String dquote text) tokens token false
        = flush tokens (token ++ text))
  /\ (forall (before text : string) (tokens : list string) (token : string),
        lex_state before [] "" false = (tokens, token, false) ->
        plain text = true ->
        lex_state (before ++ String dquote text) [] "" false
        = (tokens, (token ++ text)%string, true)
        /\ parse_query (before ++ String dquote text)
           = flush tokens (token ++ text)
        /\ (text <> "" ->
            parse_query (before ++ String dquote text)
            = tokens ++ [(token ++ text)%string])).
Proof.
  assert (open_quote :
            forall (tokens : list string) (token text : string),
              plain text = true ->
              parse_loop (String dquote text) tokens token false
              = flush tokens (token ++ text)).
  { intros tokens token text Hp. cbn [parse_loop].
    rewrite Ascii.eqb_refl. cbn [andb negb].
    rewrite <- (append_nil_r text) at 1.
    now rewrite parse_loop_quoted_plain by exact Hp. }
  assert (at_end :
            forall (query : string) (tokens : list string) (token : string)
                   (in_quotes : bool),
              lex_state query [] "" false = (tokens, token, in_quotes) ->
              parse_query query = flush tokens token).
  { intros query tokens token in_quotes E. unfold parse_query.
    rewrite (parse_loop_lex_state (String.length query))
      by apply Nat.le_refl.
    now rewrite E. }
  split; [|split; [|split; [|split; [|split]]]].
  - intros query.
    apply (parse_loop_quote_free (String.length query));
      [apply Nat.le_refl | constructor | reflexivity].
  - reflexivity.
  - intros text Hp Hne. unfold parse_query.
    rewrite open_quote by exact Hp. cbn [append].
    now apply flush_nonempty.
  - exact at_end.
  - exact open_quote.
  - intros before text tokens token Hbefore Hp.
    assert (E : lex_state (before ++ String dquote text) [] "" false
                = (tokens, (token ++ text)%string, true)).
    { rewrite (lex_state_before_quote (String.length before))
        by apply Nat.le_refl.
      rewrite Hbefore. cbn [fst snd]. rewrite lex_state_cons.
      rewrite Ascii.eqb_refl. cbn [andb negb].
      now apply lex_state_quoted_plain. }
    split; [exact E|].
    pose proof (at_end _ _ _ _ E) as Hq. split; [exact Hq|].
    intros Hne. rewrite Hq. apply flush_nonempty.
    destruct token; [exact Hne | discriminate].
Qed.

Lemma quote_mark_never_emitted_witness :
  parse_query (String dquote "new york (city)") = ["new york (city)"]
  /\ parse_query "cat big" = flush ["cat"] "big"
  /\ parse_loop (String dquote "dog bird") ["cat"] "big" false
     = flush ["cat"] ("big" ++ "dog bird")
  /\ (lex_state ("cat big" ++ String dquote "dog bird") [] "" false
      = (["cat"], ("big" ++ "dog bird")%string, true)
      /\ parse_query ("cat big" ++ String dquote "dog bird")
         = flush ["cat"] ("big" ++ "dog bird")
      /\ parse_query ("cat big" ++ String dquote "dog bird")
         = ["cat"] ++ [("big" ++ "dog bird")%string]).
Proof.
  destruct quote_mark_never_emitted
    as [_ [_ [alone [at_end [open_quote unterminated]]]]].
  split; [|split; [|split]].
  - apply (alone "new york (city)"); [reflexivity | discriminate].
  - apply (at_end "cat big" ["cat"] "big" false). reflexivity.
  - apply (open_quote ["cat"] "big" "dog bird"). reflexivity.
  - destruct (unterminated "cat big" "dog bird" ["cat"] "big")
      as [state [result last_token]]; [reflexivity | reflexivity|].
    split; [exact state|]. split; [exact result|].
    apply last_token. discriminate.
Defined.

(** ** The binary layout *)

Lemma Z_of_byte_of_Z (z : Z) : Z_of_byte (byte_of_Z z) = z mod 256.
Proof.
  unfold Z_of_byte, byte_of_Z.
  assert (B : 0 <= z mod 256 < 256) by (apply Z.mod_pos_bound; lia).
  destruct (Byte.of_N (Z.to_N (z mod 256))) as [b|] eqn:E.
  - apply Byte.to_of_N in E. rewrite E. rewrite Z2N.id; lia.
  - apply Byte.of_N_None_iff in E. lia.
Qed.

Lemma Z_of_byte_range (b : byte) : 0 <= Z_of_byte b < 256.
Proof.
  unfold Z_of_byte. pose proof (Byte.to_N_bounded b). lia.
Qed.

Lemma length_le_bytes (width : nat) (n : Z) :
  List.length (le_bytes width n) = width.
Proof.
  revert n. induction width as [|width IH]; intros n; simpl; [reflexivity|].
  now rewrite IH.
Qed.

Lemma le_value_le_bytes (width : nat) (n : Z) :
  0 <= n -> le_value (le_bytes width n) = n mod 256 ^ Z.of_nat width.
Proof.
  revert n. induction width as [|width IH]; intros n Hn.
  - simpl. now rewrite Z.mod_1_r.
  - cbn [le_bytes le_value].
    rewrite Z_of_byte_of_Z, Z.mod_mod by lia.
    rewrite IH by (apply Z.div_pos; lia).
    rewrite Nat2Z.inj_succ, Z.pow_succ_r by lia.
    rewrite Z.rem_mul_r by lia. reflexivity.
Qed.

Lemma length_u64_bytes (n : Z) : List.length (u64_bytes n) = 8%nat.
Proof. apply length_le_bytes. Qed.

Lemma le_value_u64_bytes (n : Z) :
  0 <= n < u64_max -> le_value (u64_bytes n) = n.
Proof.
  intros Hn. unfold u64_bytes.
  rewrite le_value_le_bytes by (apply Z.mod_pos_bound; unfold u64_max; lia).
  change (256 ^ Z.of_nat 8) with u64_max.
  rewrite Z.mod_mod by (unfold u64_max; lia).
  now apply Z.mod_small.
Qed.

Lemma length_chars (s : string) : List.length (chars s) = String.length s.
Proof.
  unfold chars, list_byte_of_string.
  rewrite length_map. induction s as [|c s IH]; simpl; congruence.
Qed.

Lemma size_nonneg (s : string) : 0 <= size s.
Proof. unfold size. lia. Qed.

(** ** Reading from a stream in the good state *)

Lemma read_exact (bs rest : list byte) :
  read (List.length bs) (open_stream (bs ++ rest)) = (bs, open_stream rest).
Proof.
  unfold read, open_stream. cbn [eofbit failbit pending orb].
  replace (List.length bs <=? List.length (bs ++ rest))%nat with true.
  2:{ symmetry. apply Nat.leb_le. rewrite length_app. lia. }
  rewrite firstn_app, Nat.sub_diag, firstn_all, firstn_O, app_nil_r.
  rewrite skipn_app, Nat.sub_diag, skipn_all. reflexivity.
Qed.

Lemma read_short (n : nat) (bs : list byte) :
  (List.length bs < n)%nat ->
  read n (open_stream bs) = (bs, mkIstream [] true true).
Proof.
  intros H. unfold read, open_stream. cbn [eofbit failbit pending orb].
  now apply Nat.leb_gt in H as ->.
Qed.

Lemma read_u64_exact (n : Z) (rest : list byte) :
  0 <= n < u64_max ->
  read_u64 (open_stream (u64_bytes n ++ rest)) = (Some n, open_stream rest).
Proof.
  intros Hn. unfold read_u64.
  rewrite <- (length_u64_bytes n) at 1. rewrite read_exact.
  rewrite length_u64_bytes. cbn [Nat.eqb].
  now rewrite le_value_u64_bytes.
Qed.

Lemma read_u64_short (bs : list byte) :
  (List.length bs < 8)%nat ->
  read_u64 (open_stream bs) = (None, mkIstream [] true true).
Proof.
  intros H. unfold read_u64. rewrite read_short by exact H.
  replace (List.length bs =? 8)%nat with false; [reflexivity|].
  symmetry. apply Nat.eqb_neq. lia.
Qed.

Lemma read_chars_exact (s : string) (rest : list byte) :
  read_chars (size s) (open_stream (chars s ++ rest)) = (s, open_stream rest).
Proof.
  unfold read_chars, size. rewrite Nat2Z.id.
  rewrite <- (length_chars s) at 1. rewrite read_exact.
  rewrite length_chars, Nat.sub_diag. cbn [repeat]. rewrite app_nil_r.
  unfold chars. now rewrite string_of_list_byte_of_string.
Qed.

(** A length-prefixed string is read back as it was written, on a host
    that lets the string grow to its size. *)
Lemma read_field_exact (host : Host) (s : string) (rest : list byte) :
  fits s ->
  read_field host (open_stream (write_string s ++ rest))
  = if string_resize_ok host (size s) then Returned (s, open_stream rest)
    else Terminated.
Proof.
  intros Hs. unfold read_field, write_string. rewrite <- app_assoc.
  rewrite read_u64_exact by (split; [apply size_nonneg | exact Hs]).
  cbn [use_u64 bind]. unfold read_string.
  destruct (string_resize_ok host (size s)); [|reflexivity].
  now rewrite read_chars_exact.
Qed.

(** A field asked of a file that holds fewer than eight more bytes uses a
    size that was never read. *)
Lemma read_field_short (host : Host) (bs : list byte) :
  (List.length bs < 8)%nat -> read_field host (open_stream bs) = Undefined.
Proof.
  intros H. unfold read_field. now rewrite read_u64_short by exact H.
Qed.

(** ** [load_direct_index] on the files it is given *)

Lemma load_direct_loop_eq (host : Host) (fuel : nat) (infile : istream)
    (acc : list DirectIndex) :
  load_direct_loop host fuel infile acc =
  if negb (stream_ok infile) then Some (Returned acc)
  else
    match load_direct_record host infile with
    | Returned None => Some (Returned acc)
    | Returned (Some (doc, infile')) =>
        match fuel with
        | O => None
        | S fuel' => load_direct_loop host fuel' infile' (push_back acc doc)
        end
    | Terminated => Some Terminated
    | Undefined => Some Undefined
    end.
Proof. destruct fuel; reflexivity. Qed.

(** Fewer than eight bytes left: the first read hits the end of the file
    and the loop is left through its [break]. *)
Lemma load_direct_record_short (host : Host) (bs : list byte) :
  (List.length bs < 8)%nat ->
  load_direct_record host (open_stream bs) = Returned None.
Proof.
  intros H. unfold load_direct_record. now rewrite read_u64_short by exact H.
Qed.

(** The first field of a record is there in full: what is left to do. *)
Lemma load_direct_record_head (host : Host) (a : string) (rest : list byte) :
  fits a ->
  load_direct_record host (open_stream (write_string a ++ rest))
  = if string_resize_ok host (size a) then
      '(url, s3) <- read_field host (open_stream rest);;
      '(doc_id, s4) <- read_field host s3;;
      Returned (Some (mkDirectIndex doc_id a url, s4))
    else Terminated.
Proof.
  intros Ha. unfold load_direct_record, write_string. rewrite <- app_assoc.
  rewrite read_u64_exact by (split; [apply size_nonneg | exact Ha]).
  cbn [eofbit open_stream use_u64 bind]. unfold read_string.
  destruct (string_resize_ok host (size a)); [|reflexivity].
  now rewrite read_chars_exact.
Qed.

(** The loader on a file of length-prefixed strings: it takes them three
    at a time, and returns only when their number is a multiple of three. *)
Lemma load_direct_loop_counts (host : Host) (fuel : nat) :
  forall (fields : list string) (acc res : list DirectIndex),
    Forall fits fields ->
    load_direct_loop host fuel
      (open_stream (flat_map write_string fields)) acc = Some (Returned res) ->
    (3 * List.length res = 3 * List.length acc + List.length fields)%nat.
Proof.
  induction fuel as [|fuel IH]; intros fields acc res Hfits;
    rewrite load_direct_loop_eq; cbn [stream_ok open_stream failbit negb];
    (destruct fields as [|a fields];
     [ rewrite load_direct_record_short by (simpl; lia);
       intros [= <-]; simpl; lia
     | inversion Hfits as [|? ? Ha Hfits1]; subst;
       cbn [flat_map]; rewrite load_direct_record_head by exact Ha;
       destruct (string_resize_ok host (size a)); [|discriminate];
       destruct fields as [|b fields];
       [ cbn [flat_map]; rewrite read_field_short by (simpl; lia);
         discriminate
       | inversion Hfits1 as [|? ? Hb Hfits2]; subst;
         cbn [flat_map]; rewrite read_field_exact by exact Hb;
         destruct (string_resize_ok host (size b)); [|discriminate];
         cbn [bind];
         destruct fields as [|c fields];
         [ cbn [flat_map]; rewrite read_field_short by (simpl; lia);
           discriminate
         | inversion Hfits2 as [|? ? Hc Hfits3]; subst;
           cbn [flat_map]; rewrite read_field_exact by exact Hc;
           destruct (string_resize_ok host (size c)); [|discriminate];
           cbn [bind] ] ] ]).
  - discriminate.
  - intros H. apply IH in H; [|exact Hfits3].
    unfold push_back in H. rewrite length_app in H. simpl in *. lia.
Qed.

Lemma direct_index_bytes_fields (docs : list DirectIndex) :
  direct_index_bytes docs = flat_map write_string (direct_fields docs).
Proof.
  unfold direct_index_bytes, direct_fields.
  induction docs as [|doc docs IH]; [reflexivity|].
  cbn [flat_map]. rewrite IH. unfold direct_record_bytes.
  cbn [app flat_map]. now rewrite <- app_assoc.
Qed.

Lemma length_direct_fields (docs : list DirectIndex) :
  List.length (direct_fields docs) = (2 * List.length docs)%nat.
Proof.
  unfold direct_fields. induction docs as [|doc docs IH]; simpl in *; lia.
Qed.

(** The empty index is the one index that survives the round trip. *)
Lemma empty_direct_index_round_trip (host : Host) :
  load_direct_index host (write_direct_index [] true) [] = Returned ([], []).
Proof. reflexivity. Qed.

(** C1 (the code departs from the claim). [write_direct_index] writes two
    strings per record, the title and the url, and never the [doc_id];
    [load_direct_index] reads three. So on no host does a non-empty index
    come back as it was written: a single record makes the loader run off
    the end of the file, and of three records two come back with the
    fields of their neighbours. *)
Theorem direct_index_round_trip_fails :
  forall (host : Host) (docs : list DirectIndex),
    docs <> [] ->
    Forall fits (direct_fields docs) ->
    write_direct_index docs true = Some (direct_index_bytes docs)
    /\ load_direct_index host (Some (direct_index_bytes docs)) []
       <> Returned (docs, []).
Proof.
  intros host docs Hne Hfits. split; [reflexivity|].
  unfold load_direct_index.
  destruct (load_direct_loop host _ _ _) as [[res| |]|] eqn:E;
    cbn [bind]; try discriminate.
  intros [= ->]. rewrite direct_index_bytes_fields in E.
  apply load_direct_loop_counts in E; [|exact Hfits].
  rewrite length_direct_fields in E. simpl in E.
  destruct docs; [congruence | simpl in E; lia].
Qed.

Lemma direct_index_round_trip_fails_witness :
  write_direct_index [mkDirectIndex "d1" "Cats" "http://x/1"] true
  = Some (direct_index_bytes [mkDirectIndex "d1" "Cats" "http://x/1"])
  /\ load_direct_index roomy_host
       (Some (direct_index_bytes [mkDirectIndex "d1" "Cats" "http://x/1"])) []
     <> Returned ([mkDirectIndex "d1" "Cats" "http://x/1"], []).
Proof.
  apply (direct_index_round_trip_fails roomy_host
           [mkDirectIndex "d1" "Cats" "http://x/1"]).
  - discriminate.
  - repeat constructor.
Defined.

(** What the loader makes of one written record, and of three. *)
Lemma direct_index_round_trip_examples :
  load_direct_index roomy_host
    (write_direct_index [mkDirectIndex "d1" "Cats" "http://x/1"] true) []
  = Undefined
  /\ load_direct_index roomy_host
       (write_direct_index
          [mkDirectIndex "d1" "T1" "u1"; mkDirectIndex "d2" "T2" "u2";
           mkDirectIndex "d3" "T3" "u3"] true) []
     = Returned ([mkDirectIndex "T2" "T1" "u1"; mkDirectIndex "u3" "u2" "T3"],
                 []).
Proof. split; reflexivity. Qed.

(** ** The loops of the loaders end within the length of the file *)

Lemma read_pending (n : nat) (s : istream) :
  (List.length (pending (snd (read n s))) <= List.length (pending s))%nat.
Proof.
  unfold read. destruct (eofbit s || failbit s); [simpl; lia|].
  destruct (n <=? List.length (pending s))%nat; simpl; [|lia].
  rewrite length_skipn. lia.
Qed.

Lemma read_u64_some (s s' : istream) (n : Z) :
  read_u64 s = (Some n, s') ->
  (List.length (pending s') + 8 = List.length (pending s))%nat.
Proof.
  unfold read_u64, read. destruct (eofbit s || failbit s).
  - simpl. discriminate.
  - destruct (8 <=? List.length (pending s))%nat eqn:E.
    + apply Nat.leb_le in E.
      pose proof (length_skipn 8 (pending s)) as L.
      remember (skipn 8 (pending s)) as rest.
      destruct (List.length (firstn 8 (pending s)) =? 8)%nat; [|discriminate].
      intros [= _ <-]. cbn [pending]. lia.
    + apply Nat.leb_gt in E.
      replace (List.length (pending s) =? 8)%nat with false; [discriminate|].
      symmetry. apply Nat.eqb_neq. lia.
Qed.

Lemma read_u64_pending (s s' : istream) (v : option Z) :
  read_u64 s = (v, s') ->
  (List.length (pending s') <= List.length (pending s))%nat.
Proof.
  unfold read_u64. pose proof (read_pending 8 s) as H.
  destruct (read 8 s) as [got s1]. simpl in H.
  destruct (List.length got =? 8)%nat; intros [= _ <-]; exact H.
Qed.

Lemma read_string_pending (host : Host) (n : Z) (s s' : istream) (x : string) :
  read_string host n s = Returned (x, s') ->
  (List.length (pending s') <= List.length (pending s))%nat.
Proof.
  unfold read_string, read_chars.
  destruct (string_resize_ok host n); [|discriminate].
  pose proof (read_pending (Z.to_nat n) s) as H.
  destruct (read (Z.to_nat n) s) as [got s1]. simpl in H.
  intros [= _ <-]. exact H.
Qed.

Lemma read_field_pending (host : Host) (s s' : istream) (x : string) :
  read_field host s = Returned (x, s') ->
  (List.length (pending s') <= List.length (pending s))%nat.
Proof.
  unfold read_field. destruct (read_u64 s) as [[n|] s1] eqn:E;
    cbn [use_u64 bind]; [|discriminate].
  intros H. apply read_string_pending in H.
  apply read_u64_pending in E. lia.
Qed.

(** Every record that [load_direct_index] takes uses up at least the eight
    bytes of its first length. *)
Lemma load_direct_record_consumes (host : Host) (s s' : istream)
    (doc : DirectIndex) :
  load_direct_record host s = Returned (Some (doc, s')) ->
  (List.length (pending s') < List.length (pending s))%nat.
Proof.
  unfold load_direct_record.
  destruct (read_u64 s) as [[n|] s1] eqn:E1.
  2:{ destruct (eofbit s1); discriminate. }
  apply read_u64_some in E1.
  destruct (eofbit s1); [discriminate|]. cbn [use_u64 bind].
  destruct (read_string host n s1) as [[t s2]| |] eqn:E2;
    cbn [bind]; try discriminate.
  destruct (read_field host s2) as [[u s3]| |] eqn:E3;
    cbn [bind]; try discriminate.
  destruct (read_field host s3) as [[i s4]| |] eqn:E4;
    cbn [bind]; try discriminate.
  intros [= _ <-].
  apply read_string_pending in E2. apply read_field_pending in E3.
  apply read_field_pending in E4. lia.
Qed.

Lemma load_direct_loop_fuel (host : Host) (fuel : nat) :
  forall (s : istream) (acc : list DirectIndex),
    (List.length (pending s) <= fuel)%nat ->
    load_direct_loop host fuel s acc <> None.
Proof.
  induction fuel as [|fuel IH]; intros s acc Hs;
    rewrite load_direct_loop_eq;
    destruct (negb (stream_ok s)); try discriminate;
    destruct (load_direct_record host s) as [[[doc s']|]| |] eqn:E;
    try discriminate;
    apply load_direct_record_consumes in E.
  - lia.
  - apply IH. lia.
Qed.

(** [load_direct_index] always comes to an end by itself: the bound on the
    passes of its loop is never what stops it. *)
Lemma load_direct_index_total (host : Host) (bytes : list byte)
    (acc : list DirectIndex) :
  exists o, load_direct_loop host (List.length bytes) (open_stream bytes) acc
            = Some o
            /\ load_direct_index host (Some bytes) acc
               = (loaded <- o;; Returned (loaded, [])).
Proof.
  unfold load_direct_index.
  destruct (load_direct_loop host (List.length bytes) (open_stream bytes) acc)
    as [o|] eqn:E.
  - now exists o.
  - exfalso. revert E. apply load_direct_loop_fuel. simpl. lia.
Qed.

(** ** [load_direct_index] on the layout it decodes *)

Lemma read_field_loadable (host : Host) (s : string) (rest : list byte) :
  loadable_string host s ->
  read_field host (open_stream (write_string s ++ rest))
  = Returned (s, open_stream rest).
Proof.
  intros [Hfit Hok]. now rewrite read_field_exact, Hok.
Qed.

Lemma load_direct_record_complete (host : Host) (doc : DirectIndex)
    (rest : list byte) :
  loadable host doc ->
  load_direct_record host (open_stream (loader_record_bytes doc ++ rest))
  = Returned (Some (doc, open_stream rest)).
Proof.
  intros [[Ht Hto] [Hu Hi]]. unfold loader_record_bytes.
  rewrite <- !app_assoc, load_direct_record_head, Hto by exact Ht.
  rewrite read_field_loadable by exact Hu. cbn [bind].
  rewrite read_field_loadable by exact Hi. cbn [bind].
  now destruct doc.
Qed.

Lemma load_direct_loop_complete (host : Host) (tail : list byte) :
  forall (docs : list DirectIndex) (fuel : nat) (acc : list DirectIndex),
    Forall (loadable host) docs ->
    (List.length tail < 8)%nat ->
    (List.length docs <= fuel)%nat ->
    load_direct_loop host fuel
      (open_stream (flat_map loader_record_bytes docs ++ tail)) acc
    = Some (Returned (acc ++ docs)).
Proof.
  induction docs as [|doc docs IH]; intros fuel acc Hdocs Htail Hfuel;
    rewrite load_direct_loop_eq; cbn [stream_ok open_stream failbit negb].
  - cbn [flat_map app]. rewrite load_direct_record_short by exact Htail.
    now rewrite app_nil_r.
  - inversion Hdocs as [|? ? Hdoc Hrest]; subst.
    cbn [flat_map]. rewrite <- app_assoc.
    rewrite load_direct_record_complete by exact Hdoc.
    destruct fuel as [|fuel]; [simpl in Hfuel; lia|].
    rewrite IH; [|exact Hrest | exact Htail | simpl in Hfuel; lia].
    unfold push_back. now rewrite <- app_assoc.
Qed.

Lemma length_write_string (s : string) :
  List.length (write_string s) = (8 + String.length s)%nat.
Proof.
  unfold write_string. now rewrite length_app, length_u64_bytes, length_chars.
Qed.

Lemma length_loader_layout (docs : list DirectIndex) :
  (List.length docs
   <= List.length (flat_map loader_record_bytes docs))%nat.
Proof.
  induction docs as [|doc docs IH]; [simpl; lia|].
  cbn [flat_map]. rewrite length_app. unfold loader_record_bytes at 1.
  rewrite length_app, length_write_string. simpl. lia.
Qed.

(** The loader on a file in its own layout, with up to seven stray bytes
    after the last record: the records come back, the stray bytes are
    dropped without a word. *)
Lemma load_direct_index_complete (host : Host) (docs acc : list DirectIndex)
    (tail : list byte) :
  Forall (loadable host) docs ->
  (List.length tail < 8)%nat ->
  load_direct_index host
    (Some (flat_map loader_record_bytes docs ++ tail)) acc
  = Returned (acc ++ docs, []).
Proof.
  intros Hdocs Htail. unfold load_direct_index.
  rewrite load_direct_loop_complete; [reflexivity | exact Hdocs | exact Htail |].
  rewrite length_app. pose proof (length_loader_layout docs). lia.
Qed.

(** ** [load_inverted_index] on the layout [write_inverted_index] emits *)

Lemma load_inverted_loop_eq (host : Host) (fuel : nat) (infile : istream)
    (acc : list InvertedIndex) :
  load_inverted_loop host fuel infile acc =
  if negb (stream_ok infile) then Some (Returned acc)
  else
    match load_inverted_record host infile with
    | Returned None => Some (Returned acc)
    | Returned (Some (entry, infile')) =>
        match fuel with
        | O => None
        | S fuel' => load_inverted_loop host fuel' infile' (push_back acc entry)
        end
    | Terminated => Some Terminated
    | Undefined => Some Undefined
    end.
Proof. destruct fuel; reflexivity. Qed.

Lemma load_inverted_record_short (host : Host) (bs : list byte) :
  (List.length bs < 8)%nat ->
  load_inverted_record host (open_stream bs) = Returned None.
Proof.
  intros H. unfold load_inverted_record.
  now rewrite read_u64_short by exact H.
Qed.

Lemma load_postings_complete (host : Host) (rest : list byte) :
  forall (ids acc : list string),
    Forall (loadable_string host) ids ->
    load_postings host (List.length ids)
      (open_stream (flat_map write_string ids ++ rest)) acc
    = Returned (acc ++ ids, open_stream rest).
Proof.
  induction ids as [|id ids IH]; intros acc Hids.
  - simpl. now rewrite app_nil_r.
  - inversion Hids as [|? ? Hid Hrest]; subst.
    cbn [List.length load_postings flat_map]. rewrite <- app_assoc.
    rewrite read_field_loadable by exact Hid. cbn [bind].
    rewrite IH by exact Hrest. unfold push_back. now rewrite <- app_assoc.
Qed.

Lemma load_inverted_record_complete (host : Host) (entry : InvertedIndex)
    (rest : list byte) :
  loadable_entry host entry ->
  load_inverted_record host (open_stream (inverted_record_bytes entry ++ rest))
  = Returned (Some (entry, open_stream rest)).
Proof.
  intros [[Ht Hto] [Hcount [Hvec Hids]]].
  unfold load_inverted_record, inverted_record_bytes, write_string.
  rewrite <- !app_assoc.
  rewrite read_u64_exact by (split; [apply size_nonneg | exact Ht]).
  cbn [eofbit open_stream use_u64 bind]. unfold read_string. rewrite Hto.
  rewrite read_chars_exact. cbn [bind].
  rewrite read_u64_exact by lia. cbn [use_u64 bind]. rewrite Hvec.
  cbn [negb]. rewrite Nat2Z.id.
  rewrite load_postings_complete by exact Hids. cbn [bind app].
  now destruct entry.
Qed.

Lemma load_inverted_loop_complete (host : Host) (tail : list byte) :
  forall (entries : list InvertedIndex) (fuel : nat)
         (acc : list InvertedIndex),
    Forall (loadable_entry host) entries ->
    (List.length tail < 8)%nat ->
    (List.length entries <= fuel)%nat ->
    load_inverted_loop host fuel
      (open_stream (inverted_index_bytes entries ++ tail)) acc
    = Some (Returned (acc ++ entries)).
Proof.
  unfold inverted_index_bytes.
  induction entries as [|entry entries IH]; intros fuel acc Hall Htail Hfuel;
    rewrite load_inverted_loop_eq; cbn [stream_ok open_stream failbit negb].
  - cbn [flat_map app]. rewrite load_inverted_record_short by exact Htail.
    now rewrite app_nil_r.
  - inversion Hall as [|? ? Hentry Hrest]; subst.
    cbn [flat_map]. rewrite <- app_assoc.
    rewrite load_inverted_record_complete by exact Hentry.
    destruct fuel as [|fuel]; [simpl in Hfuel; lia|].
    rewrite IH; [|exact Hrest | exact Htail | simpl in Hfuel; lia].
    unfold push_back. now rewrite <- app_assoc.
Qed.

Lemma length_inverted_layout (entries : list InvertedIndex) :
  (List.length entries <= List.length (inverted_index_bytes entries))%nat.
Proof.
  unfold inverted_index_bytes.
  induction entries as [|entry entries IH]; [simpl; lia|].
  cbn [flat_map]. rewrite length_app. unfold inverted_record_bytes at 1.
  rewrite length_app, length_write_string. simpl. lia.
Qed.

(** The inverted index, unlike the direct one, is read in the layout it is
    written in: it comes back as it was, and up to seven stray bytes after
    the last entry are dropped without a word. *)
Lemma load_inverted_index_complete (host : Host)
    (entries acc : list InvertedIndex) (tail : list byte) :
  Forall (loadable_entry host) entries ->
  (List.length tail < 8)%nat ->
  load_inverted_index host (Some (inverted_index_bytes entries ++ tail)) acc
  = Returned (acc ++ entries, []).
Proof.
  intros Hall Htail. unfold load_inverted_index.
  rewrite load_inverted_loop_complete;
    [reflexivity | exact Hall | exact Htail |].
  rewrite length_app. pose proof (length_inverted_layout entries). lia.
Qed.

Lemma load_postings_pending (host : Host) (remaining : nat) :
  forall (s s' : istream) (acc ids : list string),
    load_postings host remaining s acc = Returned (ids, s') ->
    (List.length (pending s') <= List.length (pending s))%nat.
Proof.
  induction remaining as [|remaining IH]; intros s s' acc ids.
  - simpl. intros [= _ <-]. lia.
  - cbn [load_postings].
    destruct (read_field host s) as [[id s1]| |] eqn:E;
      cbn [bind]; try discriminate.
    intros H. apply IH in H. apply read_field_pending in E. lia.
Qed.

Lemma load_inverted_record_consumes (host : Host) (s s' : istream)
    (entry : InvertedIndex) :
  load_inverted_record host s = Returned (Some (entry, s')) ->
  (List.length (pending s') < List.length (pending s))%nat.
Proof.
  unfold load_inverted_record.
  destruct (read_u64 s) as [[n|] s1] eqn:E1.
  2:{ destruct (eofbit s1); discriminate. }
  apply read_u64_some in E1.
  destruct (eofbit s1); [discriminate|]. cbn [use_u64 bind].
  destruct (read_string host n s1) as [[t s2]| |] eqn:E2;
    cbn [bind]; try discriminate.
  destruct (read_u64 s2) as [[count|] s3] eqn:E3;
    cbn [use_u64 bind]; try discriminate.
  destruct (vector_resize_ok host count); cbn [negb]; [|discriminate].
  destruct (load_postings host (Z.to_nat count) s3 []) as [[ids s4]| |] eqn:E4;
    cbn [bind]; try discriminate.
  intros [= _ <-].
  apply read_string_pending in E2. apply read_u64_pending in E3.
  apply load_postings_pending in E4. lia.
Qed.

Lemma load_inverted_loop_fuel (host : Host) (fuel : nat) :
  forall (s : istream) (acc : list InvertedIndex),
    (List.length (pending s) <= fuel)%nat ->
    load_inverted_loop host fuel s acc <> None.
Proof.
  induction fuel as [|fuel IH]; intros s acc Hs;
    rewrite load_inverted_loop_eq;
    destruct (negb (stream_ok s)); try discriminate;
    destruct (load_inverted_record host s) as [[[entry s']|]| |] eqn:E;
    try discriminate;
    apply load_inverted_record_consumes in E.
  - lia.
  - apply IH. lia.
Qed.

Lemma load_inverted_index_total (host : Host) (bytes : list byte)
    (acc : list InvertedIndex) :
  exists o, load_inverted_loop host (List.length bytes) (open_stream bytes) acc
            = Some o
            /\ load_inverted_index host (Some bytes) acc
               = (loaded <- o;; Returned (loaded, [])).
Proof.
  unfold load_inverted_index.
  destruct (load_inverted_loop host (List.length bytes) (open_stream bytes) acc)
    as [o|] eqn:E.
  - now exists o.
  - exfalso. revert E. apply load_inverted_loop_fuel. simpl. lia.
Qed.

(** ** The searcher as a whole *)

Lemma eval_tokens_empty_index (tokens : list string) :
  eval_tokens [] tokens [] = [].
Proof.
  unfold eval_tokens. induction tokens as [|token tokens IH]; [reflexivity|].
  simpl. replace (eval_token [] [] token) with (@nil (list string));
    [exact IH|].
  unfold eval_token. now destruct (is_operator token).
Qed.

Lemma answer_empty_index (direct_index : list DirectIndex) (query : string) :
  answer [] direct_index query
  = if (query =? "")%string then [] else [NothingFound query; BlankLine].
Proof.
  unfold answer, boolean_search. now rewrite eval_tokens_empty_index.
Qed.

(** C4 (as amended). An index file that cannot be opened is reported on
    [cerr] and nothing more: the loader returns with the index as it was.
    On a file in the layout it decodes the loader stops at the end of the
    last record, and also when fewer than eight bytes follow it, which it
    drops. Either way [main] goes on: once the query file is open, the run
    answers every query from whatever the loaders returned and exits with
    status 0. *)
Theorem load_failure_is_reported_and_the_search_goes_on :
  forall host : Host,
    (forall acc,
        load_direct_index host None acc
        = Returned (acc, [CannotOpenDirectIndex]))
    /\ (forall acc,
          load_inverted_index host None acc
          = Returned (acc, [CannotOpenInvertedIndex]))
    /\ (forall docs acc tail,
          Forall (loadable host) docs ->
          (List.length tail < 8)%nat ->
          load_direct_index host
            (Some (flat_map loader_record_bytes docs ++ tail)) acc
          = Returned (acc ++ docs, []))
    /\ (forall entries acc tail,
          Forall (loadable_entry host) entries ->
          (List.length tail < 8)%nat ->
          load_inverted_index host
            (Some (inverted_index_bytes entries ++ tail)) acc
          = Returned (acc ++ entries, []))
    /\ (forall query_file more files queries direct e1 inverted e2,
          query_lines files query_file = Some queries ->
          load_direct_index host (direct_index_bin files) []
          = Returned (direct, e1) ->
          load_inverted_index host (inverted_index_bin files) []
          = Returned (inverted, e2) ->
          searcher_main host (query_file :: more) files
          = Returned (mkFinished 0
                        (flat_map (answer inverted direct) queries)
                        (e1 ++ e2)))
    /\ (forall query_file more files queries,
          query_lines files query_file = Some queries ->
          direct_index_bin files = None ->
          inverted_index_bin files = None ->
          searcher_main host (query_file :: more) files
          = Returned (mkFinished 0
                        (flat_map
                           (fun query =>
                              if (query =? "")%string then []
                              else [NothingFound query; BlankLine])
                           queries)
                        [CannotOpenDirectIndex; CannotOpenInvertedIndex])).
Proof.
  intros host. repeat split.
  - intros docs acc tail. apply load_direct_index_complete.
  - intros entries acc tail. apply load_inverted_index_complete.
  - intros query_file more files queries direct e1 inverted e2 Hq Hd Hi.
    unfold searcher_main. now rewrite Hq, Hd, Hi.
  - intros query_file more files queries Hq Hd Hi.
    unfold searcher_main. rewrite Hq, Hd, Hi. cbn [load_direct_index bind
      load_inverted_index app]. do 2 f_equal.
    apply flat_map_ext. intros query. apply answer_empty_index.
Qed.

Lemma load_failure_is_reported_and_the_search_goes_on_witness :
  load_direct_index roomy_host
    (Some (flat_map loader_record_bytes [mkDirectIndex "d1" "Cats" "u"]
           ++ [x01; x02; x03])) []
  = Returned ([] ++ [mkDirectIndex "d1" "Cats" "u"], [])
  /\ load_inverted_index roomy_host
       (Some (inverted_index_bytes scenario_index ++ [x01])) []
     = Returned ([] ++ scenario_index, [])
  /\ searcher_main roomy_host ["queries.txt"] cut_index_files
     = Returned (mkFinished 0
                   (flat_map
                      (answer scenario_index
                         [mkDirectIndex (String "d" (String zero EmptyString))
                            "Cats" "http://x/1"])
                      ["cat"])
                   ([] ++ []))
  /\ searcher_main roomy_host ["queries.txt"] no_index_files
     = Returned (mkFinished 0
                   (flat_map
                      (fun query =>
                         if (query =? "")%string then []
                         else [NothingFound query; BlankLine])
                      ["cat"])
                   [CannotOpenDirectIndex; CannotOpenInvertedIndex]).
Proof.
  destruct (load_failure_is_reported_and_the_search_goes_on roomy_host)
    as [_ [_ [direct [inverted [goes_on missing]]]]].
  split; [|split; [|split]].
  - apply direct; [|simpl; lia].
    repeat constructor.
  - apply inverted; [|simpl; lia].
    repeat constructor.
  - apply goes_on; reflexivity.
  - apply missing; reflexivity.
Defined.

(** C4 (the claim as stated fails). With both index files missing the
    searcher reports them, answers the query [cat] with its line for no
    result and exits with status 0; and a direct index cut off inside its
    last [doc_id] is loaded as a record whose [doc_id] is padded with a NUL,
    after which the run exits with status 0 as well. *)
Lemma missing_or_cut_index_is_not_fatal :
  searcher_main roomy_host ["queries.txt"] no_index_files
  = Returned (mkFinished 0 [NothingFound "cat"; BlankLine]
                [CannotOpenDirectIndex; CannotOpenInvertedIndex])
  /\ ~ stops_on_load_error
         (searcher_main roomy_host ["queries.txt"] no_index_files)
  /\ load_direct_index roomy_host (Some cut_direct_index) []
     = Returned ([mkDirectIndex (String "d" (String zero EmptyString))
                    "Cats" "http://x/1"], [])
  /\ load_direct_index roomy_host (Some [x01; x02; x03]) []
     = Returned ([], [])
  /\ ~ stops_on_load_error
         (searcher_main roomy_host ["queries.txt"] cut_index_files).
Proof.
  split; [reflexivity|]. split.
  { intros H. exact (H _ eq_refl eq_refl). }
  split; [reflexivity|]. split; [reflexivity|].
  intros H. exact (H _ eq_refl eq_refl).
Qed.

(** ** The builder *)

Lemma build_scenario :
  inverted_index (build scenario_corpus) = scenario_index
  /\ direct_index (build scenario_corpus)
     = [mkDirectIndex "d1" "First" "http://x/1";
        mkDirectIndex "d2" "Second" "http://x/2"].
Proof. split; reflexivity. Qed.

(** C2 (the code departs from the claim). The builder appends the document
    to the postings of a term at every occurrence of the term and never
    sorts or deduplicates: for a corpus that names [d2] before [d1] and
    says [cat] twice in [d2], the postings of [cat] are [d2; d2; d1],
    neither ascending nor free of duplicates; for documents numbered [9]
    and [10] they are [9; 10], descending as strings. The evaluator, whose
    set algorithms need ascending lists, then answers [cat dog &&] with
    nothing, although one document holds both words. *)
Theorem builder_leaves_postings_in_arrival_order :
  inverted_index (build unordered_corpus)
  = [mkInvertedIndex "cat" ["d2"; "d2"; "d1"]; mkInvertedIndex "dog" ["d1"]]
  /\ ascendingb ["d2"; "d2"; "d1"] = false
  /\ ~ NoDup ["d2"; "d2"; "d1"]
  /\ boolean_search "cat dog &&" (inverted_index (build unordered_corpus)) []
     = []
  /\ inverted_index (build numbered_corpus)
     = [mkInvertedIndex "cat" ["9"; "10"]; mkInvertedIndex "dog" ["10"]]
  /\ ascendingb ["9"; "10"] = false
  /\ boolean_search "cat dog &&" (inverted_index (build numbered_corpus)) []
     = [].
Proof.
  repeat split.
  intros H. inversion H as [|? ? Hin _]; subst. apply Hin. now left.
Qed.

(** [total_docs] counts the lines of the corpus that parse, in 64 bits. *)
Lemma total_docs_fold (lines : list (option JsonDoc)) (b : builder) :
  0 <= total_docs b < u64_max ->
  total_docs (fold_left index_line lines b)
  = (total_docs b + Z.of_nat (List.length (filter is_parsed lines)))
    mod u64_max.
Proof.
  revert b. induction lines as [|line lines IH]; intros b Hb.
  - simpl. rewrite Z.add_0_r. symmetry. now apply Z.mod_small.
  - cbn [fold_left filter]. destruct line as [doc|].
    + rewrite IH.
      * unfold index_line. destruct (fold_left _ _ _) as [inverted terms].
        cbn [total_docs is_parsed List.length].
        rewrite Z.add_mod_idemp_l by (unfold u64_max; lia).
        f_equal. lia.
      * unfold index_line. destruct (fold_left _ _ _) as [inverted terms].
        cbn [total_docs]. apply Z.mod_pos_bound. unfold u64_max. lia.
    + cbn [is_parsed]. now rewrite IH.
Qed.

Lemma total_docs_build (lines : list (option JsonDoc)) :
  total_docs (build lines)
  = Z.of_nat (List.length (filter is_parsed lines)) mod u64_max.
Proof.
  unfold build. rewrite total_docs_fold; [reflexivity|].
  simpl. unfold u64_max. lia.
Qed.

(** C6 (as amended). When an output file cannot be opened the writer
    reports it on [cerr] and returns; the build goes on, writes the other
    index file if that one opens, and exits with status 0. This holds
    whenever the statistics step completes: the log cannot be opened, or
    at least one document was counted. *)
Theorem write_failure_is_reported_and_the_build_exits_zero :
  forall (world : BuilderWorld) (lines : list (option JsonDoc)),
    corpus world = Some lines ->
    log_writable world = false \/ total_docs (build lines) <> 0 ->
    indexer_main world
    = Returned
        (mkBuilt 0
           (if direct_writable world
            then Some (direct_index_bytes (direct_index (build lines)))
            else None)
           (if inverted_writable world
            then Some (inverted_index_bytes (inverted_index (build lines)))
            else None)
           (builder_cerr (build lines)
            ++ (if direct_writable world then [] else [CannotOpenDirectOutput])
            ++ (if inverted_writable world then []
                else [CannotOpenInvertedOutput])
            ++ (if log_writable world then [] else [CannotOpenLog]))).
Proof.
  intros world lines Hcorpus Hlog. unfold indexer_main. rewrite Hcorpus.
  assert (E : log_statistics (total_docs (build lines)) (log_writable world)
              = Returned (if log_writable world then [] else [CannotOpenLog])).
  { unfold log_statistics. destruct (log_writable world); [|reflexivity].
    cbn [negb]. destruct Hlog as [Hlog|Hlog]; [discriminate|].
    now apply Z.eqb_neq in Hlog as ->. }
  rewrite E. cbn [bind]. unfold write_direct_index, write_inverted_index.
  destruct (direct_writable world), (inverted_writable world); reflexivity.
Qed.

Lemma write_failure_is_reported_and_the_build_exits_zero_witness :
  indexer_main direct_output_locked
  = Returned
      (mkBuilt 0
         (if direct_writable direct_output_locked
          then Some (direct_index_bytes
                       (direct_index (build scenario_corpus)))
          else None)
         (if inverted_writable direct_output_locked
          then Some (inverted_index_bytes
                       (inverted_index (build scenario_corpus)))
          else None)
         (builder_cerr (build scenario_corpus)
          ++ (if direct_writable direct_output_locked then []
              else [CannotOpenDirectOutput])
          ++ (if inverted_writable direct_output_locked then []
              else [CannotOpenInvertedOutput])
          ++ (if log_writable direct_output_locked then []
              else [CannotOpenLog]))).
Proof.
  apply (write_failure_is_reported_and_the_build_exits_zero
           direct_output_locked scenario_corpus).
  - reflexivity.
  - right. discriminate.
Defined.

(** C6 (the claim as stated fails). With [direct_index.bin] locked the
    builder reports it, still writes the inverted index and exits with
    status 0. *)
Lemma locked_output_does_not_abort_the_build :
  indexer_main direct_output_locked
  = Returned (mkBuilt 0 None (Some (inverted_index_bytes scenario_index))
                [CannotOpenDirectOutput])
  /\ ~ aborts_without_output (indexer_main direct_output_locked).
Proof.
  split; [reflexivity|].
  intros H. destruct (H _ eq_refl) as [Hstatus _]. now apply Hstatus.
Qed.

(** * Further properties *)

(** ** The lexer, token by token *)

Section ParseLoopInvariant.
(** A property [P] of the tokens pushed and a property [Q] of the operand
    under construction, for queries whose characters all satisfy [R]. *)
Variable R : ascii -> Prop.
Variable P : string -> Prop.
Variable Q : bool -> string -> Prop.

Hypothesis Q_flush :
  forall in_quotes token, Q in_quotes token -> token <> "" -> P token.
Hypothesis Q_reset :
  forall in_quotes token, Q in_quotes token -> Q in_quotes "".
Hypothesis Q_toggle :
  R dquote -> forall in_quotes token,
    Q in_quotes token -> Q (negb in_quotes) token.
Hypothesis Q_grow :
  forall in_quotes token c,
    R c -> Q in_quotes token ->
    (c =? dquote)%char = false -> is_operator_char c = false ->
    is_separator c && negb in_quotes = false ->
    Q in_quotes (token ++ string_of_char c)%string.
Hypothesis P_operator :
  forall c, is_operator_char c = true ->
            P (string_of_char c) /\ P (String c (String c EmptyString)).

Lemma invariant_flush (tokens : list string) (token : string)
    (in_quotes : bool) :
  Forall P tokens -> Q in_quotes token -> Forall P (flush tokens token).
Proof.
  intros Ht Hq. unfold flush.
  destruct (String.eqb_spec token ""); [exact Ht|].
  apply Forall_app. split; [exact Ht|]. constructor; [|constructor].
  eapply Q_flush; eauto.
Qed.

Lemma invariant_push (tokens : list string) (token : string) :
  Forall P tokens -> P token -> Forall P (push_back tokens token).
Proof.
  intros Ht Hp. apply Forall_app. split; [exact Ht | now constructor].
Qed.

Lemma parse_loop_invariant (n : nat) :
  forall (query : string) (tokens : list string) (token : string)
         (in_quotes : bool),
    (String.length query <= n)%nat ->
    string_all R query ->
    Forall P tokens -> Q in_quotes token ->
    Forall P (parse_loop query tokens token in_quotes).
Proof.
  induction n as [|n IH]; intros query tokens token in_quotes Hn Hr Ht Hq.
  - destruct query; [|simpl in Hn; lia]. now apply invariant_flush with in_quotes.
  - destruct query as [|c rest]; [now apply invariant_flush with in_quotes|].
    simpl in Hn. destruct Hr as [Hc Hrest]. cbn [parse_loop].
    pose proof (Q_reset _ _ Hq) as Hq0.
    destruct (c =? dquote)%char eqn:Eq.
    + apply Ascii.eqb_eq in Eq. subst c.
      destruct in_quotes; simpl; apply IH; auto; try lia;
        now apply (Q_toggle Hc _ _ Hq).
    + cbn [andb].
      destruct (is_separator c && negb in_quotes) eqn:Esep.
      * apply IH; [lia | exact Hrest | | exact Hq0].
        now apply invariant_flush with in_quotes.
      * destruct (is_operator_char c) eqn:Eop.
        -- destruct (P_operator c Eop) as [Hc1 Hc2].
           pose proof (invariant_flush tokens token in_quotes Ht Hq) as Hf.
           destruct rest as [|c' rest'].
           ++ apply IH; [simpl; lia | exact Hrest | | exact Hq0].
              now apply invariant_push.
           ++ simpl in Hn. destruct (c' =? c)%char.
              ** apply IH; [lia | apply Hrest | | exact Hq0].
                 now apply invariant_push.
              ** apply IH; [simpl; lia | exact Hrest | | exact Hq0].
                 now apply invariant_push.
        -- apply IH; [lia | exact Hrest | exact Ht |].
           now apply Q_grow.
Qed.
End ParseLoopInvariant.

Lemma string_all_True (s : string) : string_all (fun _ => True) s.
Proof. induction s; simpl; auto. Qed.

Lemma plain_append (s1 s2 : string) :
  plain (s1 ++ s2) = plain s1 && plain s2.
Proof.
  induction s1 as [|c s1 IH]; [reflexivity|].
  cbn [append plain]. now rewrite IH, andb_assoc.
Qed.

Lemma wordy_append (s1 s2 : string) :
  wordy (s1 ++ s2) = wordy s1 && wordy s2.
Proof.
  induction s1 as [|c s1 IH]; [reflexivity|].
  cbn [append wordy]. now rewrite IH, andb_assoc.
Qed.

Lemma operator_token_single (c : ascii) :
  is_operator_char c = true -> is_operator_token (string_of_char c) = true.
Proof. intros H. exact H. Qed.

Lemma operator_token_double (c : ascii) :
  is_operator_char c = true ->
  is_operator_token (String c (String c EmptyString)) = true.
Proof.
  intros H. cbn [is_operator_token]. now rewrite H, Ascii.eqb_refl.
Qed.

(** X1. Whatever the query, every token of [parse_query] is non-empty and
    is either an operator token (one operator character, or the same one
    twice) or text free of operator characters and quote marks: the lexer
    never emits an empty token and never leaves an operator character
    inside an operand. *)
Theorem parse_query_token_shapes :
  forall query : string,
    Forall (fun token =>
              token <> ""
              /\ (is_operator_token token = true \/ plain token = true))
           (parse_query query).
Proof.
  intros query. unfold parse_query.
  apply parse_loop_invariant
    with (R := fun _ => True) (Q := fun _ token => plain token = true)
         (n := String.length query); cbv beta.
  - intros in_quotes token Hp Hne. split; [exact Hne | now right].
  - reflexivity.
  - intros _ in_quotes token Hp. exact Hp.
  - intros in_quotes token c _ Hp Hd Ho _.
    rewrite plain_append, Hp. cbn [plain string_of_char andb].
    now rewrite Hd, Ho.
  - intros c Hc. split; (split; [discriminate | left]).
    + now apply operator_token_single.
    + now apply operator_token_double.
  - apply Nat.le_refl.
  - apply string_all_True.
  - constructor.
  - reflexivity.
Qed.

Lemma unquoted_string_all (query : string) :
  mentions dquote query = false ->
  string_all (fun c => (c =? dquote)%char = false) query.
Proof.
  induction query as [|c query IH]; intros Hq; [exact I|].
  cbn [mentions] in Hq. apply orb_false_iff in Hq as [Hc Hq].
  split; [exact Hc | now apply IH].
Qed.

(** X2. In a query without quote marks no token holds a space or a
    parenthesis either: every token is an operator token or a word. *)
Theorem unquoted_query_tokens_are_words :
  forall query : string,
    mentions dquote query = false ->
    Forall (fun token => is_operator_token token = true \/ wordy token = true)
           (parse_query query).
Proof.
  intros query Hq. unfold parse_query.
  apply parse_loop_invariant
    with (R := fun c => (c =? dquote)%char = false)
         (Q := fun in_quotes token => in_quotes = false /\ wordy token = true)
         (n := String.length query); cbv beta.
  - intros in_quotes token [_ Hw] _. now right.
  - intros in_quotes token [Hi _]. now split.
  - intros Hd. rewrite Ascii.eqb_refl in Hd. discriminate.
  - intros in_quotes token c _ [Hi Hw] Hd Ho Hs. subst in_quotes.
    split; [reflexivity|]. rewrite andb_true_r in Hs.
    rewrite wordy_append, Hw. cbn [wordy string_of_char andb].
    unfold is_word_char. now rewrite Hd, Ho, Hs.
  - intros c Hc. split; left.
    + now apply operator_token_single.
    + now apply operator_token_double.
  - apply Nat.le_refl.
  - now apply unquoted_string_all.
  - constructor.
  - now split.
Qed.

Lemma unquoted_query_tokens_are_words_witness :
  Forall (fun token => is_operator_token token = true \/ wordy token = true)
         (parse_query "(cat dog &&) bird ||").
Proof.
  apply (unquoted_query_tokens_are_words "(cat dog &&) bird ||").
  reflexivity.
Defined.

(** ** The lexer, one step at a time *)

Lemma separator_not_dquote (c : ascii) :
  is_separator c = true -> (c =? dquote)%char = false.
Proof.
  unfold is_separator. intros H.
  apply orb_true_iff in H as [H|H]; [apply orb_true_iff in H as [H|H]|];
    apply Ascii.eqb_eq in H; subst; reflexivity.
Qed.

Lemma separator_not_operator (c : ascii) :
  is_separator c = true -> is_operator_char c = false.
Proof.
  intros H. destruct (is_operator_char c) eqn:E; [|reflexivity].
  apply operator_char_not_separator in E. congruence.
Qed.

Lemma parse_loop_grow (c : ascii) (rest : string) (tokens : list string)
    (token : string) (in_quotes : bool) :
  (c =? dquote)%char = false ->
  is_separator c && negb in_quotes = false ->
  is_operator_char c = false ->
  parse_loop (String c rest) tokens token in_quotes
  = parse_loop rest tokens (token ++ string_of_char c) in_quotes.
Proof.
  intros Hd Hs Ho. cbn [parse_loop]. now rewrite Hd, Hs, Ho.
Qed.

Lemma parse_loop_separator (c : ascii) (rest : string) (tokens : list string)
    (token : string) :
  is_separator c = true ->
  parse_loop (String c rest) tokens token false
  = parse_loop rest (flush tokens token) "" false.
Proof.
  intros Hs. cbn [parse_loop].
  now rewrite (separator_not_dquote c Hs), Hs.
Qed.

Lemma parse_loop_operator_pair (c : ascii) (rest : string)
    (tokens : list string) (token : string) (in_quotes : bool) :
  is_operator_char c = true ->
  parse_loop (String c (String c rest)) tokens token in_quotes
  = parse_loop rest
      (push_back (flush tokens token) (String c (String c EmptyString))) ""
      in_quotes.
Proof.
  intros Hc. cbn [parse_loop].
  rewrite (operator_char_not_dquote c Hc), (operator_char_not_separator c Hc).
  cbn [andb]. now rewrite Hc, Ascii.eqb_refl.
Qed.

Lemma parse_loop_operator_last (c : ascii) (tokens : list string)
    (token : string) (in_quotes : bool) :
  is_operator_char c = true ->
  parse_loop (string_of_char c) tokens token in_quotes
  = push_back (flush tokens token) (string_of_char c).
Proof.
  intros Hc. unfold string_of_char at 1. cbn [parse_loop].
  rewrite (operator_char_not_dquote c Hc), (operator_char_not_separator c Hc).
  cbn [andb]. now rewrite Hc.
Qed.

(** Outside quotes a word is appended to the operand being built. *)
Lemma parse_loop_word (w rest : string) :
  forall (tokens : list string) (token : string),
    wordy w = true ->
    parse_loop (w ++ rest) tokens token false
    = parse_loop rest tokens (token ++ w) false.
Proof.
  induction w as [|c w IH]; intros tokens token Hw.
  - simpl. now rewrite append_nil_r.
  - cbn [wordy] in Hw. apply andb_true_iff in Hw as [Hc Hw].
    unfold is_word_char in Hc. apply andb_true_iff in Hc as [Hc Hs].
    apply andb_true_iff in Hc as [Hd Ho].
    apply negb_true_iff in Hd. apply negb_true_iff in Ho.
    apply negb_true_iff in Hs.
    cbn [append]. rewrite parse_loop_grow; [|exact Hd | now rewrite Hs | exact Ho].
    rewrite IH by exact Hw. now rewrite append_assoc.
Qed.

Lemma parse_loop_spaced (words : list string) :
  forall tokens : list string,
    Forall (fun w => w <> "" /\ wordy w = true) words ->
    parse_loop (spaced words) tokens "" false = tokens ++ words.
Proof.
  induction words as [|w words IH]; intros tokens Hall.
  - simpl. now rewrite app_nil_r.
  - inversion Hall as [|? ? [Hne Hw] Hrest]; subst.
    destruct words as [|w' words].
    + cbn [spaced String.concat].
      rewrite <- (append_nil_r w) at 1. rewrite parse_loop_word by exact Hw.
      cbn [append parse_loop]. now apply flush_nonempty.
    + change (spaced (w :: w' :: words))
        with (w ++ String " " (spaced (w' :: words)))%string.
      rewrite parse_loop_word by exact Hw. cbn [append].
      rewrite parse_loop_separator by reflexivity.
      rewrite flush_nonempty by exact Hne.
      rewrite IH by exact Hrest. now rewrite <- app_assoc.
Qed.

(** X3. Words with single spaces between them lex to the words, in
    order. *)
Theorem parse_query_of_spaced_words :
  forall words : list string,
    Forall (fun w => w <> "" /\ wordy w = true) words ->
    parse_query (spaced words) = words.
Proof.
  intros words Hall. unfold parse_query.
  now rewrite parse_loop_spaced.
Qed.

Lemma parse_query_of_spaced_words_witness :
  parse_query (spaced ["new"; "york"; "2024"]) = ["new"; "york"; "2024"].
Proof.
  apply (parse_query_of_spaced_words ["new"; "york"; "2024"]).
  repeat constructor; discriminate.
Defined.

Lemma blank_parenthesis_not_operator (c c' : ascii) :
  is_operator_char c = true ->
  ((if ((c' =? "(") || (c' =? ")"))%char then " "%char else c') =? c)%char
  = (c' =? c)%char.
Proof.
  intros Hc. destruct ((c' =? "(") || (c' =? ")"))%char eqn:E; [|reflexivity].
  assert (Hsep : is_separator c' = true).
  { unfold is_separator. apply orb_true_iff in E as [E|E]; rewrite E;
      [now rewrite orb_true_r | now rewrite !orb_true_r]. }
  transitivity false.
  - apply Ascii.eqb_neq. intros <-. discriminate.
  - symmetry. apply Ascii.eqb_neq. intros ->.
    apply separator_not_operator in Hsep. congruence.
Qed.

Lemma parse_loop_blank_parentheses (n : nat) :
  forall (query : string) (tokens : list string) (token : string),
    (String.length query <= n)%nat ->
    mentions dquote query = false ->
    parse_loop (blank_parentheses query) tokens token false
    = parse_loop query tokens token false.
Proof.
  induction n as [|n IH]; intros query tokens token Hn Hq.
  - destruct query; [reflexivity | simpl in Hn; lia].
  - destruct query as [|c rest]; [reflexivity|].
    simpl in Hn. cbn [mentions] in Hq.
    apply orb_false_iff in Hq as [Hd Hq]. cbn [blank_parentheses].
    destruct ((c =? "(") || (c =? ")"))%char eqn:Eparen.
    + assert (Hsep : is_separator c = true).
      { unfold is_separator. apply orb_true_iff in Eparen as [E|E]; rewrite E;
          [now rewrite orb_true_r | now rewrite !orb_true_r]. }
      rewrite !parse_loop_separator by (exact Hsep || reflexivity).
      apply IH; [lia | exact Hq].
    + destruct (is_separator c) eqn:Esep.
      * rewrite !parse_loop_separator by exact Esep. apply IH; [lia | exact Hq].
      * destruct (is_operator_char c) eqn:Eop.
        -- destruct rest as [|c' rest'].
           ++ reflexivity.
           ++ simpl in Hn. cbn [mentions] in Hq.
              apply orb_false_iff in Hq as [Hd' Hq'].
              cbn [blank_parentheses].
              pose proof (blank_parenthesis_not_operator c c' Eop) as Hb.
              destruct (c' =? c)%char eqn:Ec.
              ** apply Ascii.eqb_eq in Hb. rewrite Hb.
                 apply Ascii.eqb_eq in Ec. subst c'.
                 rewrite !parse_loop_operator_pair by exact Eop.
                 apply IH; [lia | exact Hq'].
              ** rewrite !parse_loop_operator by assumption.
                 change (String (if ((c' =? "(") || (c' =? ")"))%char
                                 then " "%char else c')
                           (blank_parentheses rest'))
                   with (blank_parentheses (String c' rest')).
                 apply IH; [simpl; lia|].
                 cbn [mentions]. now rewrite Hd', Hq'.
        -- rewrite !parse_loop_grow by (assumption || now rewrite Esep).
           apply IH; [lia | exact Hq].
Qed.

(** X4. Parentheses group nothing: in a query without quote marks every
    parenthesis can be replaced by a space without changing the tokens. *)
Theorem parentheses_lex_as_spaces :
  forall query : string,
    mentions dquote query = false ->
    parse_query (blank_parentheses query) = parse_query query.
Proof.
  intros query Hq. unfold parse_query.
  now apply (parse_loop_blank_parentheses (String.length query)).
Qed.

Lemma parentheses_lex_as_spaces_witness :
  parse_query (blank_parentheses "(cat || dog)&&bird")
  = parse_query "(cat || dog)&&bird".
Proof.
  apply (parentheses_lex_as_spaces "(cat || dog)&&bird"). reflexivity.
Defined.

(** ** The set operations on lists in any order *)

Lemma set_intersection_in (l1 l2 : list string) (a : string) :
  In a (set_intersection l1 l2) -> In a l1 /\ In a l2.
Proof.
  revert l2. induction l1 as [|x l1 IH1]; intros l2; [simpl; tauto|].
  induction l2 as [|y l2 IH2].
  - rewrite set_intersection_nil_r. simpl. tauto.
  - rewrite set_intersection_cons.
    destruct (String.ltb x y) eqn:Exy; [|destruct (String.ltb y x) eqn:Eyx].
    + intros H. apply IH1 in H. simpl in *. tauto.
    + intros H. apply IH2 in H. simpl in *. tauto.
    + pose proof (ltb_connex _ _ Exy Eyx) as ->.
      intros [<-|H]; [simpl; tauto|]. apply IH1 in H. simpl. tauto.
Qed.

Lemma set_difference_in (l1 l2 : list string) (a : string) :
  In a (set_difference l1 l2) -> In a l1.
Proof.
  revert l2. induction l1 as [|x l1 IH1]; intros l2; [simpl; tauto|].
  induction l2 as [|y l2 IH2].
  - now rewrite set_difference_nil_r.
  - rewrite set_difference_cons.
    destruct (String.ltb x y) eqn:Exy; [|destruct (String.ltb y x) eqn:Eyx].
    + intros [<-|H]; [now left|]. apply IH1 in H. now right.
    + exact IH2.
    + intros H. apply IH1 in H. now right.
Qed.

Lemma and_operation_in (left right : list string) (a : string) :
  In a (and_operation left right) -> In a left /\ In a right.
Proof.
  unfold and_operation. destruct (empty left || empty right); [simpl; tauto|].
  apply set_intersection_in.
Qed.

Lemma or_operation_in (left right : list string) (a : string) :
  In a (or_operation left right) -> In a left \/ In a right.
Proof.
  unfold or_operation. destruct (empty left || empty right); [simpl; tauto|].
  apply set_union_in.
Qed.

Lemma not_operation_in_left (left right : list string) (a : string) :
  In a (not_operation left right) -> In a left.
Proof.
  unfold not_operation. destruct (empty left); [simpl; tauto|].
  apply set_difference_in.
Qed.

(** X5. On postings in any order, sorted or not, the three operations
    never invent a document: whatever [and_operation] returns is in both
    operands, whatever [or_operation] returns is in one of them, and
    whatever [not_operation] returns is in the left one. *)
Theorem operations_never_invent_documents :
  forall left right : list string,
    Forall (fun a => In a left /\ In a right) (and_operation left right)
    /\ Forall (fun a => In a left \/ In a right) (or_operation left right)
    /\ Forall (fun a => In a left) (not_operation left right).
Proof.
  intros left right. rewrite !Forall_forall. split; [|split].
  - intros a. apply and_operation_in.
  - intros a. apply or_operation_in.
  - intros a. apply not_operation_in_left.
Qed.

(** ** The set operations on ascending lists *)

Lemma or_operation_ascending (left right : list string) :
  ascending left -> ascending right -> ascending (or_operation left right).
Proof.
  intros Hl Hr. unfold or_operation.
  destruct (empty left || empty right); [reflexivity|].
  now apply set_union_ascending.
Qed.

Lemma and_operation_mem (left right : list string) (a : string) :
  ascending left -> ascending right ->
  (In a (and_operation left right) <-> In a left /\ In a right).
Proof.
  intros Hl Hr. destruct (and_operation_intersection left right Hl Hr) as [-> _].
  rewrite filter_In, mem_in. tauto.
Qed.

(** X6. On ascending lists, an empty one included, [and_operation] is the
    intersection: its result holds exactly the documents of both operands,
    is ascending again, and does not depend on the order of the
    operands. *)
Theorem and_operation_is_the_intersection :
  forall left right : list string,
    ascending left -> ascending right ->
    (forall a, In a (and_operation left right) <-> In a left /\ In a right)
    /\ ascending (and_operation left right)
    /\ and_operation left right = and_operation right left.
Proof.
  intros left right Hl Hr.
  assert (Hlr : ascending (and_operation left right))
    by now apply and_operation_intersection.
  assert (Hrl : ascending (and_operation right left))
    by now apply and_operation_intersection.
  split; [|split; [exact Hlr|]].
  - intros a. now apply and_operation_mem.
  - apply ascending_ext; [exact Hlr | exact Hrl |].
    intros a. rewrite !and_operation_mem by assumption. tauto.
Qed.

Lemma and_operation_is_the_intersection_witness :
  (forall a, In a (and_operation ["d1"; "d2"; "d4"] ["d2"; "d3"; "d4"])
             <-> In a ["d1"; "d2"; "d4"] /\ In a ["d2"; "d3"; "d4"])
  /\ ascending (and_operation ["d1"; "d2"; "d4"] ["d2"; "d3"; "d4"])
  /\ and_operation ["d1"; "d2"; "d4"] ["d2"; "d3"; "d4"]
     = and_operation ["d2"; "d3"; "d4"] ["d1"; "d2"; "d4"].
Proof.
  apply (and_operation_is_the_intersection
           ["d1"; "d2"; "d4"] ["d2"; "d3"; "d4"]); reflexivity.
Defined.

(** X7. On ascending lists that are both non-empty, [or_operation] is the
    union: its result holds exactly the documents of either operand, is
    ascending again, and does not depend on the order of the operands. *)
Theorem or_operation_is_the_union_of_nonempty_lists :
  forall left right : list string,
    left <> [] -> right <> [] ->
    ascending left -> ascending right ->
    (forall a, In a (or_operation left right) <-> In a left \/ In a right)
    /\ ascending (or_operation left right)
    /\ or_operation left right = or_operation right left.
Proof.
  intros left right Nl Nr Hl Hr.
  destruct (or_operation_union left right Nl Nr Hl Hr) as [Hin Hasc].
  destruct (or_operation_union right left Nr Nl Hr Hl) as [Hin' Hasc'].
  split; [exact Hin | split; [exact Hasc|]].
  apply ascending_ext; [exact Hasc | exact Hasc' |].
  intros a. rewrite Hin, Hin'. tauto.
Qed.

Lemma or_operation_is_the_union_of_nonempty_lists_witness :
  (forall a, In a (or_operation ["d1"; "d3"] ["d2"; "d3"])
             <-> In a ["d1"; "d3"] \/ In a ["d2"; "d3"])
  /\ ascending (or_operation ["d1"; "d3"] ["d2"; "d3"])
  /\ or_operation ["d1"; "d3"] ["d2"; "d3"]
     = or_operation ["d2"; "d3"] ["d1"; "d3"].
Proof.
  apply (or_operation_is_the_union_of_nonempty_lists
           ["d1"; "d3"] ["d2"; "d3"]);
    (discriminate || reflexivity).
Defined.

(** X8. On an ascending list the operations with both operands equal:
    [and_operation] and [or_operation] give the list back, and
    [not_operation] gives nothing; and taking nothing away leaves the
    list. *)
Theorem operations_on_equal_operands :
  forall postings : list string,
    ascending postings ->
    and_operation postings postings = postings
    /\ or_operation postings postings = postings
    /\ not_operation postings postings = []
    /\ not_operation postings [] = postings.
Proof.
  intros postings H. repeat split.
  - apply ascending_ext; [now apply and_operation_intersection | exact H |].
    intros a. rewrite and_operation_mem by assumption. tauto.
  - destruct postings as [|x postings]; [reflexivity|].
    destruct (or_operation_union (x :: postings) (x :: postings))
      as [Hin Hasc]; try discriminate; try assumption.
    apply ascending_ext; [exact Hasc | exact H |].
    intros a. rewrite Hin. tauto.
  - destruct (not_operation postings postings) as [|a rest] eqn:E;
      [reflexivity|].
    assert (Ha : In a (not_operation postings postings))
      by (rewrite E; now left).
    apply not_operation_in in Ha; [|exact H | exact H]. tauto.
  - unfold not_operation. destruct postings; [reflexivity|].
    cbn [empty]. apply set_difference_nil_r.
Qed.

Lemma operations_on_equal_operands_witness :
  and_operation ["d1"; "d2"] ["d1"; "d2"] = ["d1"; "d2"]
  /\ or_operation ["d1"; "d2"] ["d1"; "d2"] = ["d1"; "d2"]
  /\ not_operation ["d1"; "d2"] ["d1"; "d2"] = []
  /\ not_operation ["d1"; "d2"] [] = ["d1"; "d2"].
Proof.
  apply (operations_on_equal_operands ["d1"; "d2"]). reflexivity.
Defined.

(** ** What the stack machine keeps *)

Lemma lookup_term_in (inverted_index : list InvertedIndex) (token : string)
    (postings : list string) :
  lookup_term inverted_index token = Some postings ->
  exists entry, In entry inverted_index
                /\ term entry = token /\ doc_ids entry = postings.
Proof.
  induction inverted_index as [|entry others IH]; [discriminate|].
  simpl. destruct (String.eqb_spec (term entry) token) as [E|_].
  - intros [= <-]. exists entry. auto.
  - intros H. destruct (IH H) as [e [He Hrest]]. exists e. auto.
Qed.

Lemma eval_operator_operate (inverted_index : list InvertedIndex)
    (rest : list (list string)) (left right : list string) (token : string) :
  is_operator token = true ->
  eval_token inverted_index (rest ++ [left; right]) token
  = rest ++ [operate token left right].
Proof. apply eval_operator_two. Qed.

Lemma back_in {A : Type} (d : A) (v : list A) : v <> [] -> In (back d v) v.
Proof.
  intros H. destruct (exists_last H) as [v' [x ->]].
  unfold back. rewrite last_last. apply in_or_app. right. now left.
Qed.

Section StackInvariant.
(** A property of postings lists that the index has and the three
    operations keep. *)
Variable inverted_index : list InvertedIndex.
Variable P : list string -> Prop.

Hypothesis P_nil : P [].
Hypothesis P_index :
  forall entry, In entry inverted_index -> P (doc_ids entry).
Hypothesis P_operations :
  forall left right,
    P left -> P right ->
    P (and_operation left right) /\ P (or_operation left right)
    /\ P (not_operation left right).

Lemma operate_invariant (token : string) (left right : list string) :
  P left -> P right -> P (operate token left right).
Proof.
  intros Hl Hr. destruct (P_operations left right Hl Hr) as [Ha [Ho Hn]].
  unfold operate.
  destruct (token =? "&&")%string; [exact Ha|].
  destruct (token =? "||")%string; [exact Ho|].
  destruct (token =? "!")%string; [exact Hn | exact P_nil].
Qed.

Lemma eval_token_invariant (stack : list (list string)) (token : string) :
  Forall P stack -> Forall P (eval_token inverted_index stack token).
Proof.
  intros Hs. destruct (is_operator token) eqn:Eop.
  - destruct (Nat.ltb_spec (List.length stack) 2) as [Hlt|Hge].
    + unfold eval_token. rewrite Eop.
      now apply Nat.ltb_lt in Hlt as ->.
    + destruct (two_on_top stack Hge) as [rest [left [right ->]]].
      rewrite eval_operator_operate by exact Eop.
      apply Forall_app in Hs as [Hrest Htop].
      inversion Htop as [|? ? Hl Htop']; subst.
      inversion Htop' as [|? ? Hr _]; subst.
      apply Forall_app. split; [exact Hrest|].
      constructor; [|constructor]. now apply operate_invariant.
  - unfold eval_token. rewrite Eop.
    destruct (lookup_term inverted_index token) as [postings|] eqn:E;
      [|exact Hs].
    apply lookup_term_in in E as [entry [Hin [_ <-]]].
    apply Forall_app. split; [exact Hs|].
    constructor; [now apply P_index | constructor].
Qed.

Lemma eval_tokens_invariant (tokens : list string) :
  forall stack, Forall P stack ->
                Forall P (eval_tokens inverted_index tokens stack).
Proof.
  unfold eval_tokens.
  induction tokens as [|token tokens IH]; intros stack Hs; [exact Hs|].
  simpl. apply IH. now apply eval_token_invariant.
Qed.

Lemma boolean_search_invariant (query : string)
    (direct_index : list DirectIndex) :
  P (boolean_search query inverted_index direct_index).
Proof.
  unfold boolean_search.
  pose proof (eval_tokens_invariant (parse_query query) [] (Forall_nil P))
    as Hs.
  destruct (eval_tokens inverted_index (parse_query query) [])
    as [|top stack] eqn:E; [exact P_nil|].
  cbn [empty]. rewrite Forall_forall in Hs. apply Hs.
  apply back_in. discriminate.
Qed.
End StackInvariant.

(** X9. Whatever the query and whatever the index, every document that
    [boolean_search] returns stands in the postings of some entry of the
    index: the evaluator never answers with a document the index does not
    hold. *)
Theorem boolean_search_answers_from_the_index :
  forall (query : string) (inverted_index : list InvertedIndex)
         (direct_index : list DirectIndex),
    Forall (from_index inverted_index)
           (boolean_search query inverted_index direct_index).
Proof.
  intros query inverted_index direct_index.
  apply (boolean_search_invariant inverted_index
           (Forall (from_index inverted_index))).
  - constructor.
  - intros entry Hin. apply Forall_forall. intros id Hid.
    exists entry. auto.
  - intros left right Hl Hr. rewrite Forall_forall in Hl, Hr.
    rewrite !Forall_forall. repeat split; intros id Hid.
    + apply and_operation_in in Hid. apply Hl. tauto.
    + apply or_operation_in in Hid as [Hid|Hid]; auto.
    + apply not_operation_in_left in Hid. auto.
Qed.

(** X10. If the postings of every entry of the index are ascending, the
    list [boolean_search] returns is ascending, hence free of duplicates,
    for every query: the operations hand the order on. *)
Theorem boolean_search_keeps_postings_ascending :
  forall (query : string) (inverted_index : list InvertedIndex)
         (direct_index : list DirectIndex),
    (forall entry, In entry inverted_index -> ascending (doc_ids entry)) ->
    ascending (boolean_search query inverted_index direct_index)
    /\ NoDup (boolean_search query inverted_index direct_index).
Proof.
  intros query inverted_index direct_index Hindex.
  assert (H : ascending (boolean_search query inverted_index direct_index)).
  { apply (boolean_search_invariant inverted_index ascending).
    - reflexivity.
    - exact Hindex.
    - intros left right Hl Hr. repeat split.
      + now apply and_operation_intersection.
      + now apply or_operation_ascending.
      + now apply not_operation_difference. }
  split; [exact H | now apply ascending_NoDup].
Qed.

Lemma boolean_search_keeps_postings_ascending_witness :
  ascending (boolean_search "dog bird || cat !" scenario_index [])
  /\ NoDup (boolean_search "dog bird || cat !" scenario_index []).
Proof.
  apply (boolean_search_keeps_postings_ascending
           "dog bird || cat !" scenario_index []).
  intros entry Hin. simpl in Hin.
  destruct Hin as [<- | [<- | [<- | []]]]; reflexivity.
Defined.

(** ** Queries of two words and an operator *)

Lemma word_not_operator (w : string) : word w -> is_operator w = false.
Proof.
  intros [_ Hw]. destruct (is_operator w) eqn:E; [|reflexivity].
  unfold is_operator in E.
  apply orb_true_iff in E as [E|E]; [apply orb_true_iff in E as [E|E]|];
    apply String.eqb_eq in E; subst; discriminate.
Qed.

Lemma eval_operand_known (inverted_index : list InvertedIndex)
    (stack : list (list string)) (w : string) (postings : list string) :
  word w -> lookup_term inverted_index w = Some postings ->
  eval_token inverted_index stack w = stack ++ [postings].
Proof.
  intros Hw Hl. unfold eval_token.
  now rewrite (word_not_operator w Hw), Hl.
Qed.

(** An operator token followed by a space or by the end of the query. *)
Lemma parse_loop_operator_token (op rest : string) (tokens : list string)
    (token : string) :
  is_operator op = true ->
  rest = "" \/ (exists rest', rest = String " " rest') ->
  parse_loop (op ++ rest) tokens token false
  = parse_loop rest (push_back (flush tokens token) op) "" false.
Proof.
  intros Hop Hrest. unfold is_operator in Hop.
  apply orb_true_iff in Hop as [Hop|Hop];
    [apply orb_true_iff in Hop as [Hop|Hop]|];
    apply String.eqb_eq in Hop; subst op; cbn [append].
  - now rewrite parse_loop_operator_pair.
  - now rewrite parse_loop_operator_pair.
  - destruct Hrest as [-> | [rest' ->]].
    + now rewrite (parse_loop_operator_last "!").
    + now rewrite parse_loop_operator.
Qed.

Lemma parse_query_postfix (a b op : string) :
  word a -> word b -> is_operator op = true ->
  parse_query (a ++ " " ++ b ++ " " ++ op) = [a; b; op].
Proof.
  intros [Na Wa] [Nb Wb] Hop. unfold parse_query.
  rewrite parse_loop_word by exact Wa. cbn [append].
  rewrite parse_loop_separator by reflexivity.
  rewrite flush_nonempty by exact Na.
  rewrite parse_loop_word by exact Wb. cbn [append].
  rewrite parse_loop_separator by reflexivity.
  rewrite flush_nonempty by exact Nb.
  rewrite <- (append_nil_r op) at 1.
  rewrite parse_loop_operator_token by (exact Hop || now left).
  reflexivity.
Qed.

Lemma parse_query_infix (a b op : string) :
  word a -> word b -> is_operator op = true ->
  parse_query (a ++ " " ++ op ++ " " ++ b) = [a; op; b].
Proof.
  intros [Na Wa] [Nb Wb] Hop. unfold parse_query.
  rewrite parse_loop_word by exact Wa. cbn [append].
  rewrite parse_loop_separator by reflexivity.
  rewrite flush_nonempty by exact Na.
  rewrite parse_loop_operator_token by (exact Hop || (right; now eexists)).
  cbn [append flush String.eqb].
  rewrite parse_loop_separator by reflexivity.
  cbn [flush String.eqb].
  rewrite <- (append_nil_r b) at 1. rewrite parse_loop_word by exact Wb.
  cbn [append parse_loop]. now rewrite flush_nonempty by exact Nb.
Qed.

(** X11. The evaluator is a postfix machine. For two words that are terms
    of the index, the query with the operator last applies the operator to
    the postings of the first word and of the second, in that order; the
    same query with the operator between the words skips the operator,
    because only one list is on the stack when it comes, and answers with
    the postings of the second word alone. *)
Theorem operator_last_combines_operator_between_is_skipped :
  forall (inverted_index : list InvertedIndex)
         (direct_index : list DirectIndex)
         (a b op : string) (pa pb : list string),
    word a -> word b -> is_operator op = true ->
    lookup_term inverted_index a = Some pa ->
    lookup_term inverted_index b = Some pb ->
    boolean_search (a ++ " " ++ b ++ " " ++ op) inverted_index direct_index
    = operate op pa pb
    /\ boolean_search (a ++ " " ++ op ++ " " ++ b) inverted_index direct_index
       = pb.
Proof.
  intros inverted_index direct_index a b op pa pb Ha Hb Hop Hpa Hpb.
  unfold boolean_search, eval_tokens. split.
  - rewrite parse_query_postfix by assumption. cbn [fold_left].
    rewrite (eval_operand_known _ _ a pa Ha Hpa).
    rewrite (eval_operand_known _ _ b pb Hb Hpb). cbn [app].
    pose proof (eval_operator_operate inverted_index [] pa pb op Hop) as E.
    cbn [app] in E. rewrite E. reflexivity.
  - rewrite parse_query_infix by assumption. cbn [fold_left].
    rewrite (eval_operand_known _ _ a pa Ha Hpa). cbn [app].
    replace (eval_token inverted_index [pa] op) with [pa].
    2:{ unfold eval_token. now rewrite Hop. }
    rewrite (eval_operand_known _ _ b pb Hb Hpb). reflexivity.
Qed.

Lemma operator_last_combines_operator_between_is_skipped_witness :
  boolean_search ("dog" ++ " " ++ "cat" ++ " " ++ "&&") scenario_index []
  = operate "&&" ["d1"; "d2"] ["d1"]
  /\ boolean_search ("dog" ++ " " ++ "&&" ++ " " ++ "cat") scenario_index []
     = ["d1"].
Proof.
  apply (operator_last_combines_operator_between_is_skipped
           scenario_index [] "dog" "cat" "&&" ["d1"; "d2"] ["d1"]);
    try reflexivity; split; (discriminate || reflexivity).
Defined.

(** ** From the result to the lines printed *)

Lemma find_unique_doc_id (direct_index : list DirectIndex) (doc : DirectIndex) :
  NoDup (map doc_id direct_index) -> In doc direct_index ->
  find (fun d => (doc_id d =? doc_id doc)%string) direct_index = Some doc.
Proof.
  induction direct_index as [|d others IH]; intros Hnd Hin; [destruct Hin|].
  cbn [map] in Hnd. inversion Hnd as [|? ? Hnotin Hnd']; subst.
  cbn [find]. destruct Hin as [-> | Hin].
  - now rewrite String.eqb_refl.
  - destruct (String.eqb_spec (doc_id d) (doc_id doc)) as [E|_].
    + exfalso. apply Hnotin. rewrite E. now apply in_map.
    + now apply IH.
Qed.

Lemma find_absent_doc_id (direct_index : list DirectIndex) (id : string) :
  (forall doc, In doc direct_index -> doc_id doc <> id) ->
  find (fun d => (doc_id d =? id)%string) direct_index = None.
Proof.
  induction direct_index as [|d others IH]; intros H; [reflexivity|].
  cbn [find]. destruct (String.eqb_spec (doc_id d) id) as [E|_].
  - exfalso. apply (H d); [now left | exact E].
  - apply IH. intros doc Hin. apply H. now right.
Qed.

Lemma resolve_records (direct_index found : list DirectIndex) :
  NoDup (map doc_id direct_index) ->
  (forall doc, In doc found -> In doc direct_index) ->
  flat_map (resolve direct_index) (map doc_id found)
  = map document_line found.
Proof.
  intros Hnd. induction found as [|doc found IH]; intros Hsub; [reflexivity|].
  cbn [map flat_map]. rewrite IH by (intros d Hd; apply Hsub; now right).
  unfold resolve at 1.
  rewrite find_unique_doc_id; [reflexivity | exact Hnd |].
  apply Hsub. now left.
Qed.

(** X12. When the identifiers in the direct index are all different and a
    query's result is the identifiers of records of that index, the
    searcher prints for that query exactly one line per result, with the
    title and url of its record and in the order of the result, and then
    the empty line. *)
Theorem answer_prints_the_records_of_the_result :
  forall (inverted_index : list InvertedIndex)
         (direct_index found : list DirectIndex) (query : string),
    query <> "" -> found <> [] ->
    NoDup (map doc_id direct_index) ->
    (forall doc, In doc found -> In doc direct_index) ->
    boolean_search query inverted_index direct_index = map doc_id found ->
    answer inverted_index direct_index query
    = map document_line found ++ [BlankLine].
Proof.
  intros inverted_index direct_index found query Hq Hne Hnd Hsub Hres.
  unfold answer. apply String.eqb_neq in Hq. rewrite Hq, Hres.
  rewrite resolve_records by assumption.
  destruct found; [congruence | reflexivity].
Qed.

Lemma answer_prints_the_records_of_the_result_witness :
  answer scenario_index
    [mkDirectIndex "d1" "First" "http://x/1";
     mkDirectIndex "d2" "Second" "http://x/2"] "cat bird ||"
  = map document_line
      [mkDirectIndex "d1" "First" "http://x/1";
       mkDirectIndex "d2" "Second" "http://x/2"]
    ++ [BlankLine].
Proof.
  apply (answer_prints_the_records_of_the_result scenario_index
           [mkDirectIndex "d1" "First" "http://x/1";
            mkDirectIndex "d2" "Second" "http://x/2"]
           [mkDirectIndex "d1" "First" "http://x/1";
            mkDirectIndex "d2" "Second" "http://x/2"] "cat bird ||").
  - discriminate.
  - discriminate.
  - repeat constructor; simpl; intuition discriminate.
  - auto.
  - reflexivity.
Defined.

(** X13. When a query has a result but none of its identifiers is the
    [doc_id] of a record of the direct index, the searcher prints the empty
    line and nothing else: no document, and not the line for an empty
    result either. *)
Theorem answer_is_silent_when_nothing_resolves :
  forall (inverted_index : list InvertedIndex)
         (direct_index : list DirectIndex) (query : string),
    query <> "" ->
    boolean_search query inverted_index direct_index <> [] ->
    (forall id doc,
        In id (boolean_search query inverted_index direct_index) ->
        In doc direct_index -> doc_id doc <> id) ->
    answer inverted_index direct_index query = [BlankLine].
Proof.
  intros inverted_index direct_index query Hq Hne Habsent.
  unfold answer. apply String.eqb_neq in Hq. rewrite Hq.
  destruct (boolean_search query inverted_index direct_index)
    as [|id0 ids0] eqn:E; [congruence|].
  cbn [empty]. rewrite <- E in *. clear Hne E.
  replace (flat_map (resolve direct_index)
             (boolean_search query inverted_index direct_index))
    with (@nil output); [reflexivity|].
  symmetry.
  induction (boolean_search query inverted_index direct_index)
    as [|id ids IH]; [reflexivity|].
  cbn [flat_map]. rewrite IH by (intros i d Hi; apply Habsent; now right).
  unfold resolve. rewrite find_absent_doc_id; [reflexivity|].
  intros doc Hin. apply Habsent; [now left | exact Hin].
Qed.

Lemma answer_is_silent_when_nothing_resolves_witness :
  answer scenario_index [mkDirectIndex "T2" "T1" "u1"] "dog" = [BlankLine].
Proof.
  apply (answer_is_silent_when_nothing_resolves scenario_index
           [mkDirectIndex "T2" "T1" "u1"] "dog").
  - discriminate.
  - discriminate.
  - intros id doc Hid Hdoc. simpl in Hid, Hdoc.
    destruct Hdoc as [<- | []].
    destruct Hid as [<- | [<- | []]]; discriminate.
Defined.

(** ** Writing and reading back *)

(** X14. A length-prefixed string as the writers emit it, followed by any
    bytes, is read back as it was, bytes beyond ASCII included, and the
    stream is left at the first byte after it; this holds whenever the
    length fits the eight-byte field and [resize] to it does not throw. *)
Theorem length_prefixed_string_round_trip :
  forall (host : Host) (s : string) (rest : list byte),
    fits s -> string_resize_ok host (size s) = true ->
    List.length (write_string s) = (8 + String.length s)%nat
    /\ read_field host (open_stream (write_string s ++ rest))
       = Returned (s, open_stream rest).
Proof.
  intros host s rest Hfit Hok. split; [apply length_write_string|].
  now apply read_field_loadable.
Qed.

Lemma length_prefixed_string_round_trip_witness :
  List.length (write_string "könig") = (8 + String.length "könig")%nat
  /\ read_field roomy_host (open_stream (write_string "könig" ++ [x2a]))
     = Returned ("könig", open_stream [x2a]).
Proof.
  apply (length_prefixed_string_round_trip roomy_host "könig" [x2a]);
    reflexivity.
Defined.

(** X15. The inverted index survives the round trip: what
    [write_inverted_index] writes, [load_inverted_index] reads back as the
    same entries with the same postings in the same order, the empty index
    and entries without postings included, as long as every length fits
    its field and no [resize] throws. *)
Theorem inverted_index_round_trip :
  forall (host : Host) (inverted_index : list InvertedIndex),
    Forall (loadable_entry host) inverted_index ->
    load_inverted_index host (write_inverted_index inverted_index true) []
    = Returned (inverted_index, []).
Proof.
  intros host inverted_index Hall. cbn [write_inverted_index negb].
  rewrite <- (app_nil_r (inverted_index_bytes inverted_index)).
  now rewrite load_inverted_index_complete by (exact Hall || simpl; lia).
Qed.

Lemma inverted_index_round_trip_witness :
  load_inverted_index roomy_host (write_inverted_index scenario_index true) []
  = Returned (scenario_index, []).
Proof.
  apply (inverted_index_round_trip roomy_host scenario_index).
  repeat constructor.
Defined.

(** ** What the loaders can take out of a file, whatever it holds *)

Lemma read_field_consumes (host : Host) (s s' : istream) (x : string) :
  read_field host s = Returned (x, s') ->
  (List.length (pending s') + 8 <= List.length (pending s))%nat.
Proof.
  unfold read_field. destruct (read_u64 s) as [[n|] s1] eqn:E;
    cbn [use_u64 bind]; [|discriminate].
  intros H. apply read_string_pending in H.
  apply read_u64_some in E. lia.
Qed.

Lemma load_direct_record_floor (host : Host) (s s' : istream)
    (doc : DirectIndex) :
  load_direct_record host s = Returned (Some (doc, s')) ->
  (List.length (pending s') + 24 <= List.length (pending s))%nat.
Proof.
  unfold load_direct_record.
  destruct (read_u64 s) as [[n|] s1] eqn:E1.
  2:{ destruct (eofbit s1); discriminate. }
  apply read_u64_some in E1.
  destruct (eofbit s1); [discriminate|]. cbn [use_u64 bind].
  destruct (read_string host n s1) as [[t s2]| |] eqn:E2;
    cbn [bind]; try discriminate.
  destruct (read_field host s2) as [[u s3]| |] eqn:E3;
    cbn [bind]; try discriminate.
  destruct (read_field host s3) as [[i s4]| |] eqn:E4;
    cbn [bind]; try discriminate.
  intros [= _ <-].
  apply read_string_pending in E2. apply read_field_consumes in E3.
  apply read_field_consumes in E4. lia.
Qed.

(** The loop is left with the vector as it stands. *)
Ltac loop_left :=
  intros [= <-]; exists []; rewrite app_nil_r; simpl; split; [auto | lia].

Lemma load_direct_loop_floor (host : Host) (fuel : nat) :
  forall (s : istream) (acc res : list DirectIndex),
    load_direct_loop host fuel s acc = Some (Returned res) ->
    exists added,
      res = acc ++ added
      /\ (24 * List.length added <= List.length (pending s))%nat.
Proof.
  induction fuel as [|fuel IH]; intros s acc res;
    rewrite load_direct_loop_eq;
    destruct (negb (stream_ok s)); try (now loop_left);
    destruct (load_direct_record host s) as [[[doc s']|]| |] eqn:E;
    try discriminate; try (now loop_left).
  - intros H. apply IH in H as [added [-> Hlen]].
    apply load_direct_record_floor in E.
    exists (doc :: added). unfold push_back. rewrite <- app_assoc.
    split; [reflexivity | simpl; lia].
Qed.

(** X16. Whatever bytes the direct index file holds, well-formed or not,
    when [load_direct_index] returns it has only appended to the vector it
    was given, it has reported nothing, and every record it appended took
    at least 24 bytes of the file: three length fields. *)
Theorem load_direct_index_only_appends_what_the_file_can_hold :
  forall (host : Host) (bytes : list byte) (acc res : list DirectIndex)
         (reported : list diagnostic),
    load_direct_index host (Some bytes) acc = Returned (res, reported) ->
    reported = []
    /\ exists added,
         res = acc ++ added
         /\ (24 * List.length added <= List.length bytes)%nat.
Proof.
  intros host bytes acc res reported. unfold load_direct_index.
  destruct (load_direct_loop host (List.length bytes) (open_stream bytes) acc)
    as [[loaded| |]|] eqn:E; cbn [bind]; try discriminate.
  intros [= <- <-]. split; [reflexivity|].
  now apply load_direct_loop_floor in E.
Qed.

Lemma load_direct_index_only_appends_what_the_file_can_hold_witness :
  [] = @nil diagnostic
  /\ exists added,
       [mkDirectIndex "d0" "Zero" "u0";
        mkDirectIndex (String "d" (String zero EmptyString))
          "Cats" "http://x/1"]
       = [mkDirectIndex "d0" "Zero" "u0"] ++ added
       /\ (24 * List.length added <= List.length cut_direct_index)%nat.
Proof.
  apply (load_direct_index_only_appends_what_the_file_can_hold roomy_host
           cut_direct_index [mkDirectIndex "d0" "Zero" "u0"]).
  reflexivity.
Defined.

Lemma load_postings_floor (host : Host) (remaining : nat) :
  forall (s s' : istream) (acc ids : list string),
    load_postings host remaining s acc = Returned (ids, s') ->
    (List.length ids = List.length acc + remaining)%nat
    /\ (List.length (pending s') + 8 * remaining
        <= List.length (pending s))%nat.
Proof.
  induction remaining as [|remaining IH]; intros s s' acc ids.
  - simpl. intros [= <- <-]. lia.
  - cbn [load_postings].
    destruct (read_field host s) as [[id s1]| |] eqn:E;
      cbn [bind]; try discriminate.
    intros H. apply IH in H as [Hlen Hbytes].
    apply read_field_consumes in E.
    unfold push_back in Hlen. rewrite length_app in Hlen. simpl in Hlen. lia.
Qed.

Lemma load_inverted_record_floor (host : Host) (s s' : istream)
    (entry : InvertedIndex) :
  load_inverted_record host s = Returned (Some (entry, s')) ->
  (List.length (pending s') + entry_floor entry
   <= List.length (pending s))%nat.
Proof.
  unfold load_inverted_record, entry_floor.
  destruct (read_u64 s) as [[n|] s1] eqn:E1.
  2:{ destruct (eofbit s1); discriminate. }
  apply read_u64_some in E1.
  destruct (eofbit s1); [discriminate|]. cbn [use_u64 bind].
  destruct (read_string host n s1) as [[t s2]| |] eqn:E2;
    cbn [bind]; try discriminate.
  destruct (read_u64 s2) as [[count|] s3] eqn:E3;
    cbn [use_u64 bind]; try discriminate.
  destruct (vector_resize_ok host count); cbn [negb]; [|discriminate].
  destruct (load_postings host (Z.to_nat count) s3 []) as [[ids s4]| |] eqn:E4;
    cbn [bind]; try discriminate.
  intros [= <- <-]. cbn [doc_ids].
  apply read_string_pending in E2. apply read_u64_some in E3.
  apply load_postings_floor in E4 as [Hlen Hbytes]. simpl in Hlen.
  rewrite <- Hlen in Hbytes. lia.
Qed.

Lemma load_inverted_loop_floor (host : Host) (fuel : nat) :
  forall (s : istream) (acc res : list InvertedIndex),
    load_inverted_loop host fuel s acc = Some (Returned res) ->
    exists added,
      res = acc ++ added
      /\ (list_sum (map entry_floor added) <= List.length (pending s))%nat.
Proof.
  induction fuel as [|fuel IH]; intros s acc res;
    rewrite load_inverted_loop_eq;
    destruct (negb (stream_ok s)); try (now loop_left);
    destruct (load_inverted_record host s) as [[[entry s']|]| |] eqn:E;
    try discriminate; try (now loop_left).
  - intros H. apply IH in H as [added [-> Hlen]].
    apply load_inverted_record_floor in E.
    exists (entry :: added). unfold push_back. rewrite <- app_assoc.
    split; [reflexivity|].
    change (list_sum (map entry_floor (entry :: added)))
      with (entry_floor entry + list_sum (map entry_floor added))%nat.
    lia.
Qed.

(** X17. Whatever bytes the inverted index file holds, when
    [load_inverted_index] returns it has only appended to the vector it was
    given, it has reported nothing, and the entries it appended took at
    least sixteen bytes each and eight more for every posting: a count in
    the file that the file cannot back never comes out as postings. *)
Theorem load_inverted_index_only_appends_what_the_file_can_hold :
  forall (host : Host) (bytes : list byte) (acc res : list InvertedIndex)
         (reported : list diagnostic),
    load_inverted_index host (Some bytes) acc = Returned (res, reported) ->
    reported = []
    /\ exists added,
         res = acc ++ added
         /\ (list_sum (map entry_floor added) <= List.length bytes)%nat.
Proof.
  intros host bytes acc res reported. unfold load_inverted_index.
  destruct (load_inverted_loop host (List.length bytes) (open_stream bytes) acc)
    as [[loaded| |]|] eqn:E; cbn [bind]; try discriminate.
  intros [= <- <-]. split; [reflexivity|].
  now apply load_inverted_loop_floor in E.
Qed.

Lemma load_inverted_index_only_appends_what_the_file_can_hold_witness :
  [] = @nil diagnostic
  /\ exists added,
       scenario_index = [] ++ added
       /\ (list_sum (map entry_floor added)
           <= List.length (inverted_index_bytes scenario_index))%nat.
Proof.
  apply (load_inverted_index_only_appends_what_the_file_can_hold roomy_host
           (inverted_index_bytes scenario_index) []).
  reflexivity.
Defined.

(** ** [to_lower] and [parse_tokens] *)

Lemma tolower_alnum (c : ascii) :
  isalnum c = true -> is_lower_alnum (tolower c) = true.
Proof.
  unfold isalnum, tolower, is_lower_alnum. cbv zeta.
  pose proof (N_ascii_bounded c) as Hb.
  destruct ((65 <=? N_of_ascii c) && (N_of_ascii c <=? 90))%N eqn:Eup.
  - intros _. apply andb_true_iff in Eup as [H1 H2].
    apply N.leb_le in H1. apply N.leb_le in H2.
    rewrite N_ascii_embedding by lia.
    apply orb_true_iff. right. apply andb_true_iff.
    split; apply N.leb_le; lia.
  - intros H. apply orb_true_iff in H as [H|H];
      [apply orb_true_iff in H as [H|H]|].
    + now rewrite H.
    + congruence.
    + rewrite H. now rewrite orb_true_r.
Qed.

Lemma tolower_lower_alnum (c : ascii) :
  is_lower_alnum c = true -> tolower c = c.
Proof.
  unfold tolower, is_lower_alnum. cbv zeta. intros H.
  replace ((65 <=? N_of_ascii c) && (N_of_ascii c <=? 90))%N with false;
    [reflexivity|].
  symmetry. apply andb_false_iff.
  apply orb_true_iff in H as [H|H]; apply andb_true_iff in H as [H1 H2];
    apply N.leb_le in H1; apply N.leb_le in H2.
  - left. apply N.leb_gt. lia.
  - right. apply N.leb_gt. lia.
Qed.

Lemma lower_alnum_alnum (c : ascii) :
  is_lower_alnum c = true -> isalnum c = true.
Proof.
  unfold isalnum, is_lower_alnum. cbv zeta. intros H.
  apply orb_true_iff in H as [H|H]; rewrite H;
    [reflexivity | now rewrite orb_true_r].
Qed.

Lemma every_append (f : ascii -> bool) (s1 s2 : string) :
  every f (s1 ++ s2) = every f s1 && every f s2.
Proof.
  induction s1 as [|c s1 IH]; [reflexivity|].
  cbn [append every]. now rewrite IH, andb_assoc.
Qed.

Lemma to_lower_every (t : string) :
  every isalnum t = true -> every is_lower_alnum (to_lower t) = true.
Proof.
  induction t as [|c t IH]; [reflexivity|].
  cbn [every to_lower]. intros H. apply andb_true_iff in H as [Hc Ht].
  now rewrite (tolower_alnum c Hc), IH.
Qed.

Lemma to_lower_fixed (t : string) :
  every is_lower_alnum t = true -> to_lower t = t.
Proof.
  induction t as [|c t IH]; [reflexivity|].
  cbn [every to_lower]. intros H. apply andb_true_iff in H as [Hc Ht].
  now rewrite (tolower_lower_alnum c Hc), IH.
Qed.

Lemma to_lower_nonempty (t : string) : t <> "" -> to_lower t <> "".
Proof. destruct t; [congruence | discriminate]. Qed.

Lemma is_term_to_lower (t : string) :
  t <> "" -> every isalnum t = true -> is_term (to_lower t) = true.
Proof.
  intros Hne Hal. unfold is_term.
  rewrite (to_lower_every t Hal), andb_true_r.
  apply negb_true_iff. apply String.eqb_neq. now apply to_lower_nonempty.
Qed.

(** The loop of [parse_tokens] only adds to the vector it was given. *)
Lemma parse_tokens_loop_app (text : string) :
  forall (token : string) (tokens : list string),
    parse_tokens_loop text token tokens
    = tokens ++ parse_tokens_loop text token [].
Proof.
  induction text as [|ch text IH]; intros token tokens.
  - cbn [parse_tokens_loop]. destruct (token =? "")%string;
      [now rewrite app_nil_r | reflexivity].
  - cbn [parse_tokens_loop]. destruct (isalnum ch); [apply IH|].
    destruct (token =? "")%string; [apply IH|].
    rewrite IH. rewrite (IH "" (push_back [] (to_lower token))).
    unfold push_back. now rewrite app_assoc.
Qed.

Lemma parse_tokens_loop_terms (text : string) :
  forall (token : string) (tokens : list string),
    every isalnum token = true ->
    Forall (fun t => is_term t = true) tokens ->
    Forall (fun t => is_term t = true) (parse_tokens_loop text token tokens).
Proof.
  induction text as [|ch text IH]; intros token tokens Htok Hall.
  - cbn [parse_tokens_loop].
    destruct (String.eqb_spec token "") as [_|Hne]; [exact Hall|].
    apply Forall_app. split; [exact Hall|].
    constructor; [now apply is_term_to_lower | constructor].
  - cbn [parse_tokens_loop]. destruct (isalnum ch) eqn:Ech.
    + apply IH; [|exact Hall].
      rewrite every_append, Htok. cbn [every string_of_char]. now rewrite Ech.
    + destruct (String.eqb_spec token "") as [_|Hne]; [now apply IH|].
      apply IH; [reflexivity|].
      apply Forall_app. split; [exact Hall|].
      constructor; [now apply is_term_to_lower | constructor].
Qed.

(** X18. [parse_tokens] only appends to the vector it is given, and every
    token it appends is non-empty and made of digits and lower-case ASCII
    letters: no upper-case letter, space, punctuation or byte beyond ASCII
    gets into a token. *)
Theorem parse_tokens_appends_clean_tokens :
  forall (text : string) (tokens : list string),
    parse_tokens text tokens = tokens ++ parse_tokens text []
    /\ Forall (fun t => is_term t = true) (parse_tokens text []).
Proof.
  intros text tokens. unfold parse_tokens. split.
  - apply parse_tokens_loop_app.
  - apply parse_tokens_loop_terms; [reflexivity | constructor].
Qed.

(** The text up to a character that is no letter or digit is tokenized
    as if it ended there. *)
Lemma parse_tokens_loop_break (a : string) (sep : ascii) (b : string) :
  isalnum sep = false ->
  forall (token : string) (tokens : list string),
    parse_tokens_loop (a ++ String sep b) token tokens
    = parse_tokens_loop b "" (parse_tokens_loop a token tokens).
Proof.
  intros Hsep. induction a as [|ch a IH]; intros token tokens.
  - cbn [append parse_tokens_loop]. rewrite Hsep.
    destruct (String.eqb_spec token "") as [->|_]; reflexivity.
  - cbn [append parse_tokens_loop]. destruct (isalnum ch); [apply IH|].
    destruct (token =? "")%string; apply IH.
Qed.

Lemma parse_tokens_loop_run (w : string) :
  forall (rest token : string) (tokens : list string),
    every isalnum w = true ->
    parse_tokens_loop (w ++ rest) token tokens
    = parse_tokens_loop rest (token ++ w) tokens.
Proof.
  induction w as [|ch w IH]; intros rest token tokens Hw.
  - cbn [append]. now rewrite append_nil_r.
  - cbn [every] in Hw. apply andb_true_iff in Hw as [Hch Hw].
    cbn [append parse_tokens_loop]. rewrite Hch.
    rewrite IH by exact Hw. now rewrite append_assoc.
Qed.

(** X19. [parse_tokens] splits at every character that is no ASCII letter
    or digit: the tokens of a text with such a character in it are the
    tokens of what comes before it followed by the tokens of what comes
    after it; and a non-empty run of letters and digits alone is one token,
    the run in lower case. *)
Theorem parse_tokens_splits_at_other_characters :
  (forall (a b : string) (sep : ascii),
      isalnum sep = false ->
      parse_tokens (a ++ String sep b) []
      = parse_tokens a [] ++ parse_tokens b [])
  /\ (forall w : string,
        w <> "" -> every isalnum w = true ->
        parse_tokens w [] = [to_lower w]).
Proof.
  split.
  - intros a b sep Hsep. unfold parse_tokens.
    rewrite parse_tokens_loop_break by exact Hsep.
    now rewrite parse_tokens_loop_app.
  - intros w Hne Hw. unfold parse_tokens.
    rewrite <- (append_nil_r w) at 1.
    rewrite parse_tokens_loop_run by exact Hw.
    cbn [append parse_tokens_loop].
    now apply String.eqb_neq in Hne as ->.
Qed.

Lemma parse_tokens_splits_at_other_characters_witness :
  parse_tokens ("Cats" ++ String "," " and Dogs") []
  = parse_tokens "Cats" [] ++ parse_tokens " and Dogs" []
  /\ parse_tokens "Web2" [] = [to_lower "Web2"].
Proof.
  destruct parse_tokens_splits_at_other_characters as [split_at run].
  split.
  - apply (split_at "Cats" " and Dogs" ","%char). reflexivity.
  - apply (run "Web2"); [discriminate | reflexivity].
Defined.

(** X20. A term is its own tokenization: a non-empty string of digits and
    lower-case letters, which is what every token is, goes through
    [parse_tokens] unchanged and alone. *)
Theorem parse_tokens_fixes_terms :
  forall t : string, is_term t = true -> parse_tokens t [] = [t].
Proof.
  intros t Ht. unfold is_term in Ht. apply andb_true_iff in Ht as [Hne Hev].
  apply negb_true_iff in Hne. apply String.eqb_neq in Hne.
  assert (Hal : every isalnum t = true).
  { clear Hne. induction t as [|c t IH]; [reflexivity|].
    cbn [every] in *. apply andb_true_iff in Hev as [Hc Ht].
    now rewrite (lower_alnum_alnum c Hc), IH. }
  unfold parse_tokens. rewrite <- (append_nil_r t) at 1.
  rewrite parse_tokens_loop_run by exact Hal.
  cbn [append parse_tokens_loop].
  apply String.eqb_neq in Hne. rewrite Hne.
  now rewrite to_lower_fixed.
Qed.

Lemma parse_tokens_fixes_terms_witness : parse_tokens "web2" [] = ["web2"].
Proof.
  apply (parse_tokens_fixes_terms "web2"). reflexivity.
Defined.

(** ** The builder, step by step *)

Lemma build_app (lines1 lines2 : list (option JsonDoc)) :
  build (lines1 ++ lines2) = fold_left index_line lines2 (build lines1).
Proof. unfold build. apply fold_left_app. Qed.

Lemma index_line_inverted (b : builder) (doc_data : JsonDoc) :
  inverted_index (index_line b (Some doc_data))
  = fst (fold_left (index_token (json_doc_id doc_data))
           (parse_tokens (json_clean_text doc_data) [])
           (inverted_index b, total_terms b)).
Proof.
  unfold index_line. now destruct (fold_left _ _ _).
Qed.

Lemma index_line_total_terms (b : builder) (doc_data : JsonDoc) :
  total_terms (index_line b (Some doc_data))
  = snd (fold_left (index_token (json_doc_id doc_data))
           (parse_tokens (json_clean_text doc_data) [])
           (inverted_index b, total_terms b)).
Proof.
  unfold index_line. now destruct (fold_left _ _ _).
Qed.

Lemma index_line_direct (b : builder) (line : option JsonDoc) :
  direct_index (index_line b line) = direct_index b ++ record_of_line line.
Proof.
  destruct line as [doc_data|]; [|cbn; now rewrite app_nil_r].
  unfold index_line. now destruct (fold_left _ _ _).
Qed.

Lemma lookup_term_app (inverted_index : list InvertedIndex)
    (entry : InvertedIndex) (t : string) :
  lookup_term (inverted_index ++ [entry]) t
  = match lookup_term inverted_index t with
    | Some postings => Some postings
    | None => if (term entry =? t)%string then Some (doc_ids entry) else None
    end.
Proof.
  induction inverted_index as [|e others IH]; [reflexivity|].
  cbn [app lookup_term]. now destruct (term e =? t)%string.
Qed.

Lemma lookup_term_none (inverted_index : list InvertedIndex) (t : string) :
  lookup_term inverted_index t = None -> ~ In t (map term inverted_index).
Proof.
  induction inverted_index as [|e others IH]; [auto|].
  cbn [lookup_term map]. destruct (String.eqb_spec (term e) t) as [E|N];
    [discriminate|].
  intros H [E|Hin]; [congruence | now apply IH].
Qed.

(** The inner loop of the builder, said with the searcher's lookup. *)
Lemma append_posting_spec (inverted_index : list InvertedIndex)
    (token id : string) :
  match append_posting inverted_index token id with
  | Some updated =>
      exists postings,
        lookup_term inverted_index token = Some postings
        /\ map term updated = map term inverted_index
        /\ forall t, lookup_term updated t
                     = if (token =? t)%string then Some (postings ++ [id])
                       else lookup_term inverted_index t
  | None => lookup_term inverted_index token = None
  end.
Proof.
  induction inverted_index as [|e others IH]; [reflexivity|].
  cbn [append_posting lookup_term].
  destruct (String.eqb_spec (term e) token) as [E|N].
  - exists (doc_ids e). split; [reflexivity|]. split; [reflexivity|].
    intros t. cbn [lookup_term term doc_ids]. rewrite E.
    now destruct (token =? t)%string.
  - destruct (append_posting others token id) as [updated|]; cbn [option_map].
    + destruct IH as [postings [Hl [Hm Ht]]]. exists postings.
      split; [exact Hl|]. split; [cbn [map]; now rewrite Hm|].
      intros t. cbn [lookup_term]. rewrite Ht.
      destruct (String.eqb_spec (term e) t) as [E1|_]; [|reflexivity].
      destruct (String.eqb_spec token t) as [E2|_]; [congruence | reflexivity].
    + exact IH.
Qed.

Lemma postings_of_app (occ1 occ2 : list (string * string)) (t : string) :
  postings_of (occ1 ++ occ2) t = postings_of occ1 t ++ postings_of occ2 t.
Proof.
  unfold postings_of. now rewrite filter_app, map_app.
Qed.

Lemma lookup_spec_some (occ : list (string * string)) (t : string)
    (postings : list string) :
  lookup_spec occ t = Some postings ->
  postings_of occ t = postings /\ postings <> [].
Proof.
  unfold lookup_spec. destruct (postings_of occ t) as [|x l]; [discriminate|].
  cbn [empty]. intros [= <-]. split; [reflexivity | discriminate].
Qed.

Lemma lookup_spec_none (occ : list (string * string)) (t : string) :
  lookup_spec occ t = None -> postings_of occ t = [].
Proof.
  unfold lookup_spec. now destruct (postings_of occ t).
Qed.

Lemma index_token_lookup (inverted_index : list InvertedIndex) (n : Z)
    (occ : list (string * string)) (token id : string) :
  (forall t, lookup_term inverted_index t = lookup_spec occ t) ->
  forall t,
    lookup_term (fst (index_token id (inverted_index, n) token)) t
    = lookup_spec (occ ++ [(token, id)]) t.
Proof.
  intros Hinv t. unfold index_token.
  pose proof (append_posting_spec inverted_index token id) as Hspec.
  assert (Hnew : postings_of [(token, id)] t
                 = if (token =? t)%string then [id] else []).
  { unfold postings_of. cbn [filter fst]. now destruct (token =? t)%string. }
  unfold lookup_spec at 1. rewrite postings_of_app, Hnew.
  destruct (append_posting inverted_index token id) as [updated|].
  - destruct Hspec as [postings [Hl [_ Ht]]]. cbn [fst]. rewrite Ht.
    rewrite Hinv in Hl. apply lookup_spec_some in Hl as [Hp Hne].
    destruct (String.eqb_spec token t) as [->|_].
    + rewrite Hp. destruct postings; [congruence | reflexivity].
    + rewrite app_nil_r. apply Hinv.
  - cbn [fst]. unfold push_back. rewrite lookup_term_app. cbn [term doc_ids].
    rewrite Hinv in Hspec. apply lookup_spec_none in Hspec.
    destruct (String.eqb_spec token t) as [->|_].
    + rewrite Hinv. unfold lookup_spec. now rewrite Hspec.
    + rewrite app_nil_r, Hinv. unfold lookup_spec.
      now destruct (postings_of occ t).
Qed.

Lemma index_tokens_lookup (id : string) (tokens : list string) :
  forall (inverted_index : list InvertedIndex) (n : Z)
         (occ : list (string * string)),
    (forall t, lookup_term inverted_index t = lookup_spec occ t) ->
    forall t,
      lookup_term
        (fst (fold_left (index_token id) tokens (inverted_index, n))) t
      = lookup_spec (occ ++ map (fun token => (token, id)) tokens) t.
Proof.
  induction tokens as [|token tokens IH]; intros inverted_index n occ Hinv t.
  - cbn. rewrite app_nil_r. apply Hinv.
  - cbn [fold_left map].
    pose proof (index_token_lookup inverted_index n occ token id Hinv) as Hstep.
    destruct (index_token id (inverted_index, n) token) as [updated n'].
    cbn [fst] in Hstep.
    rewrite (IH updated n' (occ ++ [(token, id)]) Hstep).
    now rewrite <- app_assoc.
Qed.

Lemma fold_index_line_lookup (lines : list (option JsonDoc)) :
  forall (b : builder) (occ : list (string * string)),
    (forall t, lookup_term (inverted_index b) t = lookup_spec occ t) ->
    forall t,
      lookup_term (inverted_index (fold_left index_line lines b)) t
      = lookup_spec (occ ++ occurrences lines) t.
Proof.
  induction lines as [|line lines IH]; intros b occ Hinv t.
  - cbn. rewrite app_nil_r. apply Hinv.
  - cbn [fold_left occurrences flat_map]. rewrite app_assoc.
    apply IH. intros t'. destruct line as [doc_data|].
    + rewrite index_line_inverted. cbn [occurrences_of_line].
      now apply index_tokens_lookup.
    + cbn [occurrences_of_line index_line inverted_index].
      rewrite app_nil_r. apply Hinv.
Qed.

(** X21. What the searcher finds in a built index: for every term, the
    documents of the occurrences of that term in the corpus, one per
    occurrence and in the order the builder met them; and nothing for a
    string that occurs as no token. *)
Theorem built_index_lookup :
  forall (lines : list (option JsonDoc)) (t : string),
    lookup_term (inverted_index (build lines)) t
    = if empty (postings_of (occurrences lines) t) then None
      else Some (postings_of (occurrences lines) t).
Proof.
  intros lines t. unfold build.
  rewrite (fold_index_line_lookup lines initial_builder []); [reflexivity|].
  intros t'. reflexivity.
Qed.

Lemma in_postings_of (occ : list (string * string)) (t id : string) :
  In id (postings_of occ t) <-> In (t, id) occ.
Proof.
  unfold postings_of. rewrite in_map_iff. split.
  - intros [[t' id'] [E Hin]]. cbn [snd] in E. subst id'.
    apply filter_In in Hin as [Hin Ht]. cbn [fst] in Ht.
    apply String.eqb_eq in Ht. now subst.
  - intros Hin. exists (t, id). split; [reflexivity|].
    apply filter_In. split; [exact Hin|]. cbn [fst]. apply String.eqb_refl.
Qed.

Lemma in_occurrences (lines : list (option JsonDoc)) (t id : string) :
  In (t, id) (occurrences lines)
  <-> exists doc_data,
        In (Some doc_data) lines /\ json_doc_id doc_data = id
        /\ In t (parse_tokens (json_clean_text doc_data) []).
Proof.
  unfold occurrences. rewrite in_flat_map. split.
  - intros [[doc_data|] [Hline Hin]]; [|destruct Hin].
    cbn [occurrences_of_line] in Hin. apply in_map_iff in Hin as [tok [E Htok]].
    injection E as -> <-. exists doc_data. auto.
  - intros [doc_data [Hline [<- Htok]]]. exists (Some doc_data).
    split; [exact Hline|]. cbn [occurrences_of_line].
    apply in_map_iff. exists t. auto.
Qed.

(** X22. A document is in the postings the searcher finds for a term of a
    built index exactly when the term is one of the tokens of a line of the
    corpus that parsed and carries that document's identifier. *)
Theorem built_postings_hold_the_documents_with_the_token :
  forall (lines : list (option JsonDoc)) (t id : string),
    (exists postings,
        lookup_term (inverted_index (build lines)) t = Some postings
        /\ In id postings)
    <-> (exists doc_data,
            In (Some doc_data) lines /\ json_doc_id doc_data = id
            /\ In t (parse_tokens (json_clean_text doc_data) [])).
Proof.
  intros lines t id. rewrite <- in_occurrences, <- in_postings_of.
  unfold build.
  rewrite (fold_index_line_lookup lines initial_builder [] (fun _ => eq_refl)).
  cbn [app]. unfold lookup_spec. split.
  - intros [postings [E Hin]].
    destruct (postings_of (occurrences lines) t); [discriminate|].
    cbn [empty] in E. now injection E as <-.
  - intros Hin. exists (postings_of (occurrences lines) t).
    split; [|exact Hin].
    destruct (postings_of (occurrences lines) t); [destruct Hin | reflexivity].
Qed.

Lemma occurrences_are_terms (lines : list (option JsonDoc)) :
  Forall (fun o => is_term (fst o) = true) (occurrences lines).
Proof.
  unfold occurrences. apply Forall_flat_map. apply Forall_forall.
  intros [doc_data|] _; [|constructor].
  cbn [occurrences_of_line]. apply Forall_map. cbn [fst].
  apply parse_tokens_loop_terms; [reflexivity | constructor].
Qed.

Lemma postings_of_non_term (lines : list (option JsonDoc)) (t : string) :
  is_term t = false -> postings_of (occurrences lines) t = [].
Proof.
  intros Ht. destruct (postings_of (occurrences lines) t) as [|id ids] eqn:E;
    [reflexivity|].
  assert (Hin : In id (postings_of (occurrences lines) t))
    by (rewrite E; now left).
  apply in_postings_of in Hin.
  pose proof (occurrences_are_terms lines) as Hall.
  rewrite Forall_forall in Hall. apply Hall in Hin. cbn [fst] in Hin.
  congruence.
Qed.

(** X23. The builder folds tokens to lower case and the searcher does not
    fold the query: a string that has an upper-case letter, or any other
    character that is no digit or lower-case ASCII letter, is the term of
    no entry of a built index, and a query that is one such word answers
    nothing. *)
Theorem operands_are_matched_as_typed :
  forall (lines : list (option JsonDoc)) (t : string),
    is_term t = false ->
    lookup_term (inverted_index (build lines)) t = None
    /\ (word t ->
        forall direct_index,
          boolean_search t (inverted_index (build lines)) direct_index = []).
Proof.
  intros lines t Ht.
  assert (Hnone : lookup_term (inverted_index (build lines)) t = None).
  { unfold build.
    rewrite (fold_index_line_lookup lines initial_builder []
               (fun _ => eq_refl)).
    cbn [app]. unfold lookup_spec. now rewrite postings_of_non_term. }
  split; [exact Hnone|].
  intros Hw direct_index. unfold boolean_search.
  replace (parse_query t) with [t].
  2:{ symmetry. apply (parse_loop_spaced [t] []).
      constructor; [exact Hw | constructor]. }
  unfold eval_tokens. cbn [fold_left]. unfold eval_token.
  now rewrite (word_not_operator t Hw), Hnone.
Qed.

Lemma operands_are_matched_as_typed_witness :
  lookup_term (inverted_index (build scenario_corpus)) "Cat" = None
  /\ boolean_search "Cat" (inverted_index (build scenario_corpus)) [] = [].
Proof.
  destruct (operands_are_matched_as_typed scenario_corpus "Cat")
    as [unknown nothing]; [reflexivity|].
  split; [exact unknown|]. apply nothing. split; [discriminate | reflexivity].
Defined.

Lemma NoDup_snoc {A : Type} (l : list A) (x : A) :
  NoDup l -> ~ In x l -> NoDup (l ++ [x]).
Proof.
  induction l as [|y l IH]; intros Hnd Hx.
  - constructor; [auto | constructor].
  - inversion Hnd as [|? ? Hy Hl]; subst. cbn [app]. constructor.
    + intros Hin. apply in_app_or in Hin as [Hin|[<-|[]]]; [auto|].
      apply Hx. now left.
    + apply IH; [exact Hl|]. intros Hin. apply Hx. now right.
Qed.

Lemma index_token_terms (inverted_index : list InvertedIndex) (n : Z)
    (token id : string) :
  NoDup (map term inverted_index) ->
  NoDup (map term (fst (index_token id (inverted_index, n) token))).
Proof.
  intros Hnd. unfold index_token.
  pose proof (append_posting_spec inverted_index token id) as Hspec.
  destruct (append_posting inverted_index token id) as [updated|].
  - destruct Hspec as [_ [_ [Hm _]]]. cbn [fst]. now rewrite Hm.
  - cbn [fst]. unfold push_back. rewrite map_app. cbn [map term].
    apply NoDup_snoc; [exact Hnd | now apply lookup_term_none].
Qed.

Lemma fold_index_line_terms (lines : list (option JsonDoc)) :
  forall b : builder,
    NoDup (map term (inverted_index b)) ->
    NoDup (map term (inverted_index (fold_left index_line lines b))).
Proof.
  induction lines as [|line lines IH]; intros b Hnd; [exact Hnd|].
  cbn [fold_left]. apply IH. destruct line as [doc_data|]; [|exact Hnd].
  rewrite index_line_inverted.
  generalize (total_terms b). revert Hnd. generalize (inverted_index b).
  induction (parse_tokens (json_clean_text doc_data) [])
    as [|token tokens IHt]; intros idx Hnd n; [exact Hnd|].
  cbn [fold_left].
  pose proof (index_token_terms idx n token (json_doc_id doc_data) Hnd) as H.
  destruct (index_token (json_doc_id doc_data) (idx, n) token) as [idx' n'].
  now apply IHt.
Qed.

Lemma lookup_term_unique (inverted_index : list InvertedIndex)
    (entry : InvertedIndex) :
  NoDup (map term inverted_index) -> In entry inverted_index ->
  lookup_term inverted_index (term entry) = Some (doc_ids entry).
Proof.
  induction inverted_index as [|e others IH]; intros Hnd Hin; [destruct Hin|].
  cbn [map] in Hnd. inversion Hnd as [|? ? Hnotin Hnd']; subst.
  cbn [lookup_term]. destruct Hin as [-> | Hin].
  - now rewrite String.eqb_refl.
  - destruct (String.eqb_spec (term e) (term entry)) as [E|_].
    + exfalso. apply Hnotin. rewrite E. now apply in_map.
    + now apply IH.
Qed.

(** X24. The entries of a built index: no two have the same term; every
    term is non-empty and made of digits and lower-case ASCII letters; and
    the postings of every entry are the documents of the occurrences of its
    term, at least one. *)
Theorem built_index_entries :
  forall lines : list (option JsonDoc),
    NoDup (map term (inverted_index (build lines)))
    /\ Forall (fun entry =>
                 is_term (term entry) = true
                 /\ doc_ids entry
                    = postings_of (occurrences lines) (term entry)
                 /\ doc_ids entry <> [])
              (inverted_index (build lines)).
Proof.
  intros lines.
  assert (Hnd : NoDup (map term (inverted_index (build lines)))).
  { unfold build. apply fold_index_line_terms. constructor. }
  split; [exact Hnd|]. apply Forall_forall. intros entry Hin.
  pose proof (lookup_term_unique _ entry Hnd Hin) as Hl.
  unfold build in Hl.
  rewrite (fold_index_line_lookup lines initial_builder []
             (fun _ => eq_refl)) in Hl.
  cbn [app] in Hl. apply lookup_spec_some in Hl as [Hp Hne].
  split; [|split; [now symmetry | exact Hne]].
  destruct (is_term (term entry)) eqn:E; [reflexivity|].
  rewrite (postings_of_non_term lines (term entry) E) in Hp. congruence.
Qed.

Lemma fold_index_line_direct (lines : list (option JsonDoc)) :
  forall b : builder,
    direct_index (fold_left index_line lines b)
    = direct_index b ++ flat_map record_of_line lines.
Proof.
  induction lines as [|line lines IH]; intros b.
  - cbn. now rewrite app_nil_r.
  - cbn [fold_left flat_map]. rewrite IH, index_line_direct.
    now rewrite <- app_assoc.
Qed.

(** X25. The direct index of a build holds one record for every line of
    the corpus that parsed, in the order of the corpus, with the line's
    [doc_id], [title] and [normalized_url]; a line that did not parse
    leaves no record, and a line whose [doc_id] was seen before leaves its
    record all the same. *)
Theorem built_direct_index :
  forall lines : list (option JsonDoc),
    direct_index (build lines) = flat_map record_of_line lines
    /\ List.length (direct_index (build lines))
       = List.length (filter is_parsed lines).
Proof.
  intros lines.
  assert (E : direct_index (build lines) = flat_map record_of_line lines).
  { unfold build. now rewrite fold_index_line_direct. }
  split; [exact E|]. rewrite E. clear E.
  induction lines as [|[doc_data|] lines IH]; cbn; auto.
Qed.

(** ** The counters of the builder *)

Lemma index_line_total_tokens (b : builder) (line : option JsonDoc) :
  0 <= total_tokens b < u64_max ->
  total_tokens (index_line b line)
  = (total_tokens b + Z.of_nat (List.length (occurrences_of_line line)))
    mod u64_max.
Proof.
  intros Hb. destruct line as [doc_data|].
  - unfold index_line. destruct (fold_left _ _ _).
    cbn [total_tokens occurrences_of_line]. now rewrite length_map.
  - cbn. rewrite Z.add_0_r. symmetry. now apply Z.mod_small.
Qed.

Lemma total_tokens_fold (lines : list (option JsonDoc)) :
  forall b : builder,
    0 <= total_tokens b < u64_max ->
    total_tokens (fold_left index_line lines b)
    = (total_tokens b + Z.of_nat (List.length (occurrences lines)))
      mod u64_max.
Proof.
  induction lines as [|line lines IH]; intros b Hb.
  - cbn. rewrite Z.add_0_r. symmetry. now apply Z.mod_small.
  - cbn [fold_left]. unfold occurrences. cbn [flat_map].
    fold (occurrences lines). rewrite IH.
    + rewrite index_line_total_tokens by exact Hb.
      rewrite Z.add_mod_idemp_l by (unfold u64_max; lia).
      f_equal. rewrite length_app. lia.
    + rewrite index_line_total_tokens by exact Hb.
      apply Z.mod_pos_bound. unfold u64_max. lia.
Qed.

Lemma index_token_counted (id : string) (state : list InvertedIndex * Z)
    (token : string) :
  terms_counted state -> terms_counted (index_token id state token).
Proof.
  destruct state as [idx n]. unfold terms_counted, index_token.
  cbn [fst snd]. intros ->.
  pose proof (append_posting_spec idx token id) as Hspec.
  destruct (append_posting idx token id) as [updated|]; cbn [fst snd].
  - destruct Hspec as [_ [_ [Hm _]]].
    apply (f_equal (@List.length string)) in Hm.
    rewrite !length_map in Hm. now rewrite Hm.
  - unfold push_back. rewrite length_app. cbn [List.length].
    rewrite Z.add_mod_idemp_l by (unfold u64_max; lia).
    f_equal. lia.
Qed.

Lemma index_tokens_counted (id : string) (tokens : list string) :
  forall state, terms_counted state ->
                terms_counted (fold_left (index_token id) tokens state).
Proof.
  induction tokens as [|token tokens IH]; intros state H; [exact H|].
  cbn [fold_left]. apply IH. now apply index_token_counted.
Qed.

Lemma total_terms_fold (lines : list (option JsonDoc)) :
  forall b : builder,
    terms_counted (inverted_index b, total_terms b) ->
    terms_counted (inverted_index (fold_left index_line lines b),
                   total_terms (fold_left index_line lines b)).
Proof.
  induction lines as [|line lines IH]; intros b Hb; [exact Hb|].
  cbn [fold_left]. apply IH. destruct line as [doc_data|]; [|exact Hb].
  rewrite index_line_inverted, index_line_total_terms.
  rewrite <- surjective_pairing. now apply index_tokens_counted.
Qed.

(** X26. The three counters of a build, each a [uint64_t]: [total_docs] is
    the number of lines that parsed, [total_tokens] the number of token
    occurrences in them, and [total_terms] the number of entries of the
    inverted index, all modulo 2^64. *)
Theorem built_counters :
  forall lines : list (option JsonDoc),
    total_docs (build lines)
    = Z.of_nat (List.length (filter is_parsed lines)) mod u64_max
    /\ total_tokens (build lines)
       = Z.of_nat (List.length (occurrences lines)) mod u64_max
    /\ total_terms (build lines)
       = Z.of_nat (List.length (inverted_index (build lines))) mod u64_max.
Proof.
  intros lines. split; [|split].
  - unfold build. rewrite total_docs_fold; [reflexivity|].
    simpl. unfold u64_max. lia.
  - unfold build. rewrite total_tokens_fold; [reflexivity|].
    simpl. unfold u64_max. lia.
  - apply (total_terms_fold lines initial_builder). reflexivity.
Qed.

(** ** What the builder reports *)

Lemma index_line_seen (b : builder) (line : option JsonDoc) (id : string) :
  In id (doc_ids_set (index_line b line))
  <-> In id (doc_ids_set b) \/ In id (map doc_id (record_of_line line)).
Proof.
  destruct line as [doc_data|]; [|cbn; tauto].
  unfold index_line. destruct (fold_left _ _ _).
  cbn [doc_ids_set record_of_line map doc_id In].
  destruct (existsb (String.eqb (json_doc_id doc_data)) (doc_ids_set b))
    eqn:E.
  - apply existsb_exists in E as [x [Hx Ex]]. apply String.eqb_eq in Ex.
    subst x. split; [tauto|]. intros [H|[<-|[]]]; assumption.
  - cbn [In]. tauto.
Qed.

Lemma index_line_duplicate (b : builder) (line : option JsonDoc)
    (id : string) :
  In (DuplicateDocument id) (builder_cerr (index_line b line))
  <-> In (DuplicateDocument id) (builder_cerr b)
      \/ (In id (doc_ids_set b) /\ In id (map doc_id (record_of_line line))).
Proof.
  destruct line as [doc_data|].
  - unfold index_line. destruct (fold_left _ _ _).
    cbn [builder_cerr record_of_line map doc_id In].
    destruct (existsb (String.eqb (json_doc_id doc_data)) (doc_ids_set b))
      eqn:E.
    + apply existsb_exists in E as [x [Hx Ex]]. apply String.eqb_eq in Ex.
      subst x. rewrite in_app_iff. cbn [In]. split.
      * intros [H|[[= <-]|[]]]; [now left | right; auto].
      * intros [H|[_ [<-|[]]]]; [now left | right; now left].
    + split; [now left|]. intros [H|[Hin [<-|[]]]]; [exact H|].
      exfalso. assert (Hex : existsb (String.eqb (json_doc_id doc_data))
                               (doc_ids_set b) = true).
      { apply existsb_exists. exists (json_doc_id doc_data).
        split; [exact Hin | apply String.eqb_refl]. }
      congruence.
  - cbn [index_line builder_cerr record_of_line map In].
    rewrite in_app_iff. cbn [In]. split.
    + intros [H|[H|[]]]; [now left | discriminate].
    + intros [H|[_ []]]. now left.
Qed.

Lemma build_reports (lines : list (option JsonDoc)) :
  (forall id, In id (doc_ids_set (build lines)) <-> In id (parsed_ids lines))
  /\ (forall id,
         In (DuplicateDocument id) (builder_cerr (build lines))
         <-> (2 <= count_occ string_dec (parsed_ids lines) id)%nat).
Proof.
  induction lines as [|line lines [IHseen IHdup]] using rev_ind.
  - split; intros id; cbn; [tauto|]. split; [tauto | lia].
  - rewrite build_app. cbn [fold_left].
    assert (Hids : parsed_ids (lines ++ [line])
                   = parsed_ids lines ++ map doc_id (record_of_line line)).
    { unfold parsed_ids. rewrite flat_map_app, map_app. cbn [flat_map].
      now rewrite app_nil_r. }
    split; intros id.
    + rewrite index_line_seen, Hids, in_app_iff, IHseen. tauto.
    + rewrite index_line_duplicate, Hids, count_occ_app, IHdup, IHseen.
      rewrite (count_occ_In string_dec (parsed_ids lines) id).
      destruct line as [doc_data|]; cbn [record_of_line map doc_id count_occ In].
      * destruct (string_dec (json_doc_id doc_data) id) as [E|N].
        -- split; [intros [H|[H _]]; lia|]. intros H. right. split; [lia|auto].
        -- split; [intros [H|[_ [H|[]]]]; [lia | congruence]|].
           intros H. left. lia.
      * split; [intros [H|[_ []]]; lia|]. intros H. left. lia.
Qed.

(** X27. A duplicate identifier is reported, not rejected: the builder
    writes the duplicate-document message for an identifier exactly when
    two or more lines of the corpus that parsed carry it, and each of those
    lines still has its record in the direct index. *)
Theorem duplicate_documents_are_reported_and_kept :
  forall (lines : list (option JsonDoc)) (id : string),
    (In (DuplicateDocument id) (builder_cerr (build lines))
     <-> (2 <= count_occ string_dec (parsed_ids lines) id)%nat)
    /\ count_occ string_dec (map doc_id (direct_index (build lines))) id
       = count_occ string_dec (parsed_ids lines) id.
Proof.
  intros lines id. split.
  - apply build_reports.
  - unfold parsed_ids, build. now rewrite fold_index_line_direct.
Qed.

(** X28. A corpus in which no line parses, the empty corpus included,
    leaves [total_docs] at zero; when the log file then opens, the report
    divides by it, an integer division by zero, and the run has no defined
    end. *)
Theorem build_without_documents_divides_by_zero :
  forall (world : BuilderWorld) (lines : list (option JsonDoc)),
    corpus world = Some lines ->
    filter is_parsed lines = [] ->
    log_writable world = true ->
    total_docs (build lines) = 0 /\ indexer_main world = Undefined.
Proof.
  intros world lines Hcorpus Hnone Hlog.
  assert (Hdocs : total_docs (build lines) = 0).
  { rewrite total_docs_build, Hnone. reflexivity. }
  split; [exact Hdocs|].
  unfold indexer_main. rewrite Hcorpus. unfold log_statistics.
  now rewrite Hlog, Hdocs.
Qed.

Lemma build_without_documents_divides_by_zero_witness :
  total_docs (build [None]) = 0
  /\ indexer_main (mkBuilderWorld (Some [None]) true true true) = Undefined.
Proof.
  apply (build_without_documents_divides_by_zero
           (mkBuilderWorld (Some [None]) true true true) [None]);
    reflexivity.
Defined.

(** ** Quotes in the middle of an operand *)

(** X29. Quote marks only switch the separators off and are dropped: a
    word, then quoted text without operator characters (spaces and
    parentheses allowed), then another word lex to one operand token, the
    three pieces joined; in particular non-empty quoted text alone is one
    token. *)
Theorem quotes_join_text_into_one_operand :
  forall before text after : string,
    wordy before = true -> plain text = true -> wordy after = true ->
    (before ++ text ++ after)%string <> "" ->
    parse_query (before ++ quoted text ++ after)
    = [(before ++ text ++ after)%string].
Proof.
  intros before text after Hb Ht Ha Hne. unfold parse_query.
  rewrite parse_loop_word by exact Hb. cbn [append].
  rewrite parse_loop_quoted by exact Ht.
  rewrite <- (append_nil_r after) at 1.
  rewrite parse_loop_word by exact Ha.
  cbn [parse_loop]. rewrite append_assoc.
  now apply flush_nonempty.
Qed.

Lemma quotes_join_text_into_one_operand_witness :
  parse_query ("new" ++ quoted " york (ny) " ++ "city")
  = [("new" ++ " york (ny) " ++ "city")%string].
Proof.
  apply (quotes_join_text_into_one_operand "new" " york (ny) " "city");
    (reflexivity || discriminate).
Defined.
